(** * BeepGPT fine-tuning notebook: conversation windows to training examples

    A shallow embedding of [FineTuning_v1.ipynb].  The notebook is a
    straight-line composition of three kinds of calls:

    - timestream operators of the temporal-query engine ([with_key],
      [select], [collect], [shift_by], [col], [flatten], [union], [record],
      [filter], [run]);
    - the label encoder ([fit], [classes_], [transform]);
    - the two formatting functions the notebook defines itself
      ([format_prompt], [format_completion]).

    Engine and encoder are libraries the notebook imports; each of their
    operators is given here the behaviour the library shows, and the
    notebook's cells are transcribed on top of them, line by line.

    What the embedding fixes about the libraries:

    - a point of a timestream has a time, a key and a [_subsort], the index
      of the file row it comes from; the engine handles points in the order
      of (time, subsort), and [shift_by] keeps the subsort of the point it
      moves;
    - times are 64-bit nanoseconds: a point that [shift_by] would move past
      the largest of them is dropped;
    - [collect(max=n)] includes the point it is evaluated at;
    - the result of [collect] is continuous, shifted or not: at a point of
      its entity it holds the value of its latest point that is not after
      that point, and is null before its first point;
    - the trailing window at a point holds the inputs of the entity handled
      up to that point whose time is later than the point's time minus the
      window's length;
    - a record has a point wherever one of its fields has one;
    - [run] raises on a file without rows;
    - [union] keeps the elements at their first occurrence, left operand
      first;
    - [explode] turns an empty list into one missing value, and the label
      encoder sorts the distinct labels and puts a missing value last.

    A message always has a [user]; a message without reactions has the
    empty list of them. *)

From Stdlib Require Import String Ascii ZArith NArith Arith Bool Lia.
From Stdlib Require Import DecimalNat DecimalString List Sorted Permutation.
Import ListNotations.

Set Implicit Arguments.

(* ------------------------------------------------------------------ *)
(** * Generic list helpers *)

(** The last [n] elements of a list ([l[-n:]] for [n > 0], all of [l] when it
    is shorter). *)
Definition lastn {A : Type} (n : nat) (l : list A) : list A :=
  skipn (List.length l - n) l.

(** Keys of a timestream are compared with a boolean equality, which has
    to decide equality. *)
Class EqKey (K : Type) := {
  keqb : K -> K -> bool
}.

Class EqKeyLaws (K : Type) `{EqKey K} := {
  keqb_eq : forall a b : K, keqb a b = true <-> a = b
}.

Arguments EqKeyLaws K {_}.

#[export] Instance EqKey_string : EqKey string :=
  {| keqb := String.eqb |}.

Definition option_eqb {A : Type} (eqb : A -> A -> bool) (a b : option A) : bool :=
  match a, b with
  | None, None => true
  | Some x, Some y => eqb x y
  | _, _ => false
  end.


(** First-occurrence de-duplication. *)
Fixpoint dedup (seen : list string) (l : list string) : list string :=
  match l with
  | [] => []
  | x :: l' =>
      if existsb (String.eqb x) seen then dedup seen l'
      else x :: dedup (x :: seen) l'
  end.

(* ------------------------------------------------------------------ *)
(** * Data model *)

Definition UserId := string.

(** One entry of a message's [reactions] column: an emoji and the users who
    reacted with it. *)
Record Reaction := mkReaction {
  name : string;
  users : list UserId
}.

(** The fields a prompt is built from: [select("user","ts","text","reactions")]. *)
Module Sel.
Record t := mk {
  user : UserId;
  ts : string;
  text : string;
  reactions : list Reaction
}.
End Sel.

(** One row of [messages.parquet].  [ts_parsed] is the time column (in
    nanoseconds); a message outside any thread has no [thread_ts]. *)
Record Message := mkMessage {
  channel : string;
  thread_ts : option string;
  ts_parsed : Z;
  user : UserId;
  ts : string;
  text : string;
  reactions : list Reaction
}.

(** The key of the regrouped stream: [kt.record({"channel", "thread"})]. *)
Record Key := mkKey {
  key_channel : string;
  key_thread : option string
}.

Definition Key_eqb (a b : Key) : bool :=
  String.eqb (key_channel a) (key_channel b)
  && option_eqb String.eqb (key_thread a) (key_thread b).


#[export] Instance EqKey_Key : EqKey Key :=
  {| keqb := Key_eqb |}.

(* ------------------------------------------------------------------ *)
(** * Timestreams

    A timestream is the time-ordered sequence of its points; every point
    belongs to one entity (its key).  Durations and times are nanoseconds. *)

Record Row (K A : Type) := mkRow {
  _time : Z;
  _key : K;
  value : A
}.

Definition Timestream (K A : Type) := list (Row K A).

(** [datetime.timedelta(seconds=n)] *)
Definition timedelta_seconds (n : Z) : Z := (n * 1000000000)%Z.

Module kt.
Section Operators.
Context {K : Type} `{EqKey K}.

(** Stable insertion of a point at its place in time order: after the
    points that are not later than it. *)
Fixpoint insert_row {A : Type} (r : Row K A) (ts : Timestream K A) : Timestream K A :=
  match ts with
  | [] => [r]
  | x :: ts' =>
      if (_time x <=? _time r)%Z then x :: insert_row r ts'
      else r :: ts
  end.

(** The points of both operands in one time-ordered sequence. *)
Definition merge {A : Type} (a b : Timestream K A) : Timestream K A :=
  fold_left (fun acc r => insert_row r acc) b a.

(** A source yields its rows in time order; rows with equal times keep
    their order in the file. *)
Definition source {A : Type} (time_column : A -> Z) (key_column : A -> K)
    (rows : list A) : Timestream K A :=
  merge [] (map (fun a => mkRow (time_column a) (key_column a) a) rows).

End Operators.

(** [with_key]: the same points, regrouped under a new key computed from
    each point's value. *)
Definition with_key {K K' A : Type} (key : A -> K') (ts : Timestream K A) : Timestream K' A :=
  map (fun r => mkRow (_time r) (key (value r)) (value r)) ts.

(** [flatten] of a list of lists. *)
Definition flatten {A : Type} (l : list (list A)) : list A := concat l.

(** [union] of two lists: the distinct elements of the first followed by
    those of the second that are new, each at its first occurrence. *)
Definition union (a b : list string) : list string := dedup [] (a ++ b).

End kt.

(* ------------------------------------------------------------------ *)
(** * Python exceptions *)

Inductive exn := TypeError | ValueError.

Inductive result (A : Type) :=
| Ok (a : A)
| Raise (e : exn).

Arguments Ok {A} a.
Arguments Raise {A} e.

Definition bind {A B : Type} (m : result A) (f : A -> result B) : result B :=
  match m with
  | Ok a => f a
  | Raise e => Raise e
  end.

Notation "x <- m ;; k" := (bind m (fun x => k))
  (at level 61, m at next level, right associativity).

(** A list comprehension or [apply] whose body can raise: the first
    exception aborts it. *)
Fixpoint mapM {A B : Type} (f : A -> result B) (l : list A) : result (list B) :=
  match l with
  | [] => Ok []
  | a :: l' => b <- f a ;; bs <- mapM f l' ;; Ok (b :: bs)
  end.

(* ------------------------------------------------------------------ *)
(** * Cell "Read Historical Messages" *)

(** [kt.sources.Parquet(path, time_column_name="ts_parsed",
    key_column_name="channel")] *)
Definition Parquet (file : list Message) : Timestream string Message :=
  kt.source ts_parsed channel file.


(* ------------------------------------------------------------------ *)
(** * Points as the engine handles them

    The rows of a timestream, with the [_subsort] the engine breaks ties
    with: the index, in the file, of the row a point comes from. *)

Definition int64_max : Z := 9223372036854775807.

Record Point (K A : Type) := mkPoint {
  p_time : Z;
  p_subsort : nat;
  p_key : K;
  p_value : A
}.

(** The place of a point in the engine's order. *)
Definition pos {K A : Type} (p : Point K A) : Z * nat :=
  (p_time p, p_subsort p).

(** (time, subsort) pairs in lexicographic order. *)
Definition pos_leb (a b : Z * nat) : bool :=
  (fst a <? fst b)%Z || ((fst a =? fst b)%Z && (snd a <=? snd b)%nat).

(** The outcome of [run]: the rows it yields, or its [RuntimeError]. *)
Inductive run_result (A : Type) :=
| Ran (a : A)
| RuntimeError.

Arguments Ran {A} a.
Arguments RuntimeError {A}.

Module engine.
Section Operators.
Context {K : Type} `{EqKey K}.

(** Insertion of a point at its place in the engine's order: after the
    points that are not later than it. *)
Fixpoint insert_point {A : Type} (r : Point K A) (ts : list (Point K A))
  : list (Point K A) :=
  match ts with
  | [] => [r]
  | x :: ts' =>
      if pos_leb (pos x) (pos r) then x :: insert_point r ts'
      else r :: ts
  end.

(** The points of both operands in one sequence, in the engine's order. *)
Definition merge {A : Type} (a b : list (Point K A)) : list (Point K A) :=
  fold_left (fun acc r => insert_point r acc) b a.

(** A source yields one point per row, in the order of (time, row index). *)
Definition source {A : Type} (time_column : A -> Z) (key_column : A -> K)
    (rows : list A) : list (Point K A) :=
  merge [] (map (fun ia => mkPoint (time_column (snd ia)) (fst ia)
                                   (key_column (snd ia)) (snd ia))
                (combine (seq 0 (List.length rows)) rows)).

(** Pointwise application of a function ([select], [col], ...). *)
Definition map_values {A B : Type} (f : A -> B) (ts : list (Point K A))
  : list (Point K B) :=
  map (fun q => mkPoint (p_time q) (p_subsort q) (p_key q) (f (p_value q))) ts.

(** The points of [ts] that belong to the entity of point [p] and are not
    after [p] in the engine's order: what the engine has handled of [ts]
    for that entity when it handles [p]. *)
Definition upto {A B : Type} (p : Point K B) (ts : list (Point K A))
  : list (Point K A) :=
  filter (fun q => keqb (p_key q) (p_key p) && pos_leb (pos q) (pos p)) ts.

(** [collect(max=n)]: at every point, the list of the last up to [n]
    values of the point's entity, the point's own value included. *)
Definition collect {A : Type} (max : nat) (ts : list (Point K A))
  : list (Point K (list A)) :=
  map (fun q => mkPoint (p_time q) (p_subsort q) (p_key q)
                        (map (@p_value K A) (lastn max (upto q ts))))
      ts.

(** [shift_by(delta)]: every point moves forward in time by [delta] and
    keeps its subsort; a point moved past the largest time is dropped. *)
Definition shift_by {A : Type} (delta : Z) (ts : list (Point K A))
  : list (Point K A) :=
  filter (fun q => (p_time q <=? int64_max)%Z)
         (map (fun q => mkPoint (p_time q + delta)%Z (p_subsort q) (p_key q)
                                (p_value q))
              ts).

(** The latest point of a list in the engine's order. *)
Fixpoint latest {A : Type} (l : list (Point K A)) : option (Point K A) :=
  match l with
  | [] => None
  | x :: l' =>
      match latest l' with
      | Some y => if pos_leb (pos x) (pos y) then Some y else Some x
      | None => Some x
      end
  end.

(** The value a continuous timestream holds at point [p], for the entity of
    [p]: that of its latest point not after [p]; null when it has none. *)
Definition as_of {A B : Type} (ts : list (Point K A)) (p : Point K B) : option A :=
  option_map (@p_value K A) (latest (upto p ts)).

(** [collect(window=Trailing(w), max=n)] at point [p]: the last up to [n]
    values, among those handled for the entity of [p], whose time is later
    than the time of [p] minus [w]. *)
Definition collect_trailing {A B : Type} (w : Z) (max : nat)
    (ts : list (Point K A)) (p : Point K B) : list A :=
  map (@p_value K A)
      (lastn max (filter (fun q => (p_time p - w <? p_time q)%Z) (upto p ts))).

End Operators.

(** [with_key]: the same points, regrouped under a new key computed from
    each point's value. *)
Definition with_key {K K' A : Type} (key : A -> K') (ts : list (Point K A))
  : list (Point K' A) :=
  map (fun q => mkPoint (p_time q) (p_subsort q) (key (p_value q)) (p_value q)) ts.

End engine.

(* ------------------------------------------------------------------ *)
(** * Cell "Build examples" *)

Definition message_key (m : Message) : Key :=
  mkKey (channel m) (thread_ts m).

(** [messages.with_key(kt.record({"channel": ..., "thread": ...}))] *)
Definition messages (file : list Message) : Timestream Key Message :=
  kt.with_key message_key (Parquet file).

(** The same stream with the subsort of every point. *)
Definition message_points (file : list Message) : list (Point Key Message) :=
  engine.with_key message_key (engine.source ts_parsed channel file).

Definition select (m : Message) : Sel.t :=
  Sel.mk (user m) (ts m) (text m) (reactions m).

(** [messages.select("user", "ts", "text", "reactions").collect(max=20)] *)
Definition conversations (file : list Message) : list (Point Key (list Sel.t)) :=
  engine.collect 20 (engine.map_values select (message_points file)).

(** [conversations.shift_by(datetime.timedelta(seconds=1))] *)
Definition shifted_conversations (file : list Message) : list (Point Key (list Sel.t)) :=
  engine.shift_by (timedelta_seconds 1) (conversations file).

(** [messages.collect(window=kt.windows.Trailing(timedelta(seconds=1)), max=100)],
    the aggregation both engagement columns start from, at point [p]. *)
Definition trailing_messages {B : Type} (file : list Message) (p : Point Key B)
  : list Message :=
  engine.collect_trailing (timedelta_seconds 1) 100 (message_points file) p.

(** [... .col("reactions").flatten().col("users").flatten()] *)
Definition reaction_users {B : Type} (file : list Message) (p : Point Key B)
  : list UserId :=
  kt.flatten (map users (kt.flatten (map reactions (trailing_messages file p)))).

(** [... .col("user")] *)
Definition participating_users {B : Type} (file : list Message) (p : Point Key B)
  : list UserId :=
  map user (trailing_messages file p).

(** The value type of [history]. *)
Record history_t := mkHistory {
  conversation : option (list Sel.t);
  engaged_users : list UserId
}.

Definition is_not_null {A : Type} (v : option A) : bool :=
  match v with
  | Some _ => true
  | None => false
  end.

(** The points at which the record is evaluated: those of the shifted
    conversations and those of the messages the aggregations consume.  The
    points at which a trailing window lets a message go are the message's
    point moved by the length of the window, with the message's subsort:
    they are the points of the shifted conversations. *)
Definition history_points (file : list Message) : list (Point Key unit) :=
  engine.merge (engine.map_values (fun _ => tt) (shifted_conversations file))
               (engine.map_values (fun _ => tt) (message_points file)).

(** [kt.record({"conversation": shifted_conversations,
               "engaged_users": reaction_users.union(participating_users)})] *)
Definition history_record (file : list Message) : list (Point Key history_t) :=
  map (fun p =>
         mkPoint (p_time p) (p_subsort p) (p_key p)
           {| conversation := engine.as_of (shifted_conversations file) p;
              engaged_users :=
                kt.union (reaction_users file p) (participating_users file p) |})
      (history_points file).

(** [... .filter(shifted_conversations.is_not_null())] *)
Definition history (file : list Message) : list (Point Key history_t) :=
  filter (fun r => is_not_null (conversation (p_value r))) (history_record file).

(* ------------------------------------------------------------------ *)
(** * Cell "Create training dataset" *)

(** The rows of [history] without [_time], [_subsort], [_key_hash] and
    [_key]. *)
Definition history_rows (file : list Message) : list history_t :=
  map (@p_value Key history_t) (history file).

(** [history.run().to_pandas().drop(["_time", "_subsort", "_key_hash", "_key"], axis=1)];
    [run] raises on a file without rows. *)
Definition history_df (file : list Message) : run_result (list history_t) :=
  match file with
  | [] => RuntimeError
  | _ :: _ => Ran (history_rows file)
  end.

(** An element of an exploded column: a user, or [NaN] for a row whose
    list is empty. *)
Inductive Label :=
| User (u : UserId)
| NaN.

Definition Label_eqb (a b : Label) : bool :=
  match a, b with
  | User u, User v => String.eqb u v
  | NaN, NaN => true
  | _, _ => false
  end.

(** [Series.explode()] *)
Definition explode (column : list (list UserId)) : list Label :=
  flat_map (fun l => match l with
                     | [] => [NaN]
                     | _ => map User l
                     end) column.

(** [sorted] on strings: insertion sort with the code-point order. *)
Fixpoint insert_sorted (x : string) (l : list string) : list string :=
  match l with
  | [] => [x]
  | y :: l' => if String.leb x y then x :: l else y :: insert_sorted x l'
  end.

Definition sorted (l : list string) : list string :=
  fold_right insert_sorted [] l.

Module LabelEncoder.

Record t := mk { classes_ : list Label }.

Definition user_labels (y : list Label) : list UserId :=
  flat_map (fun l => match l with User u => [u] | NaN => [] end) y.

Definition has_missing (y : list Label) : bool :=
  existsb (Label_eqb NaN) y.

(** The classes for an enumeration [uniques] of the distinct users:
    [sorted(uniques)], then the missing value if there is one. *)
Definition classes_of (uniques : list UserId) (missing : bool) : list Label :=
  map User (sorted uniques) ++ (if missing then [NaN] else []).

(** [fit]: the distinct labels in sorted order, a missing value last. *)
Definition fit (y : list Label) : t :=
  mk (classes_of (dedup [] (user_labels y)) (has_missing y)).

Fixpoint index_of (x : Label) (classes : list Label) : option nat :=
  match classes with
  | [] => None
  | c :: cs =>
      if Label_eqb x c then Some 0
      else match index_of x cs with
           | Some i => Some (S i)
           | None => None
           end
  end.

(** [transform]: every label mapped to its position in [classes_]; a label
    that was not fitted raises [ValueError]. *)
Definition transform (le : t) (y : list UserId) : result (list nat) :=
  mapM (fun u => match index_of (User u) (classes_ le) with
                 | Some i => Ok i
                 | None => Raise ValueError
                 end) y.

End LabelEncoder.

(** [str] of a non-negative integer. *)
Definition str (n : nat) : string :=
  NilEmpty.string_of_uint (Nat.to_uint n).

Definition nl : string := String "010"%char EmptyString.

Local Open Scope string_scope.

(** [def format_prompt(conversation)] *)
Definition format_prompt (conversation : option (list Sel.t)) : result string :=
  match conversation with
  | None => Raise TypeError
  | Some msgs =>
      Ok ("start -> "
          ++ String.concat (nl ++ nl)
               (map (fun msg => " " ++ Sel.user msg ++ " --> " ++ Sel.text msg ++ " ") msgs)
          ++ nl ++ nl ++ "###" ++ nl ++ nl)
  end.

(** [def format_completion(engaged_users)] *)
Definition format_completion (le : LabelEncoder.t) (engaged_users : list UserId)
  : result string :=
  body <- (if (0 <? List.length engaged_users)%nat
           then idx <- LabelEncoder.transform le engaged_users ;;
                Ok (String.concat " " (map str idx))
           else Ok "nil") ;;
  Ok (" " ++ body ++ " end").

Record Example := mkExample {
  prompt : string;
  completion : string
}.

(** [le.fit(df.engaged_users.explode())] for a frame [df]. *)
Definition fit_frame (df : list history_t) : LabelEncoder.t :=
  LabelEncoder.fit (explode (map engaged_users df)).

(** The encoder fitted by the notebook: [le.fit(history_df.engaged_users.explode())],
    on the rows [run] yields. *)
Definition le (file : list Message) : LabelEncoder.t :=
  fit_frame (history_rows file).

(** [json.dump(le.classes_.tolist(), f)] *)
Definition labels_json (file : list Message) : list Label :=
  LabelEncoder.classes_ (le file).

(** The two [apply] calls, column by column, and the frame built from
    their results. *)
Definition encode (le0 : LabelEncoder.t) (df : list history_t) : result (list Example) :=
  prompts <- mapM format_prompt (map conversation df) ;;
  completions <- mapM (format_completion le0) (map engaged_users df) ;;
  Ok (map (fun pc => mkExample (fst pc) (snd pc)) (combine prompts completions)).

(** [examples_df], the content of [examples.jsonl]: nothing when [run]
    raises. *)
Definition examples_df (file : list Message) : run_result (result (list Example)) :=
  match history_df file with
  | RuntimeError => RuntimeError
  | Ran df => Ran (encode (fit_frame df) df)
  end.

(* ------------------------------------------------------------------ *)
(** * The scenario of two messages in one channel *)

Definition ev0 : Message :=
  mkMessage "ch1" None 0 "A" "0" "hi" [].

Definition ev1 : Message :=
  mkMessage "ch1" None (timedelta_seconds 1) "B" "1" "hey" [mkReaction "thumbsup" ["C"]].

Definition ch1 : Key := mkKey "ch1" None.

Local Close Scope string_scope.

(* ------------------------------------------------------------------ *)
(** * Notions the statements use *)

(** Time order of a timestream. *)
Definition time_ordered {K A : Type} (ts : Timestream K A) : Prop :=
  StronglySorted (fun a b => (_time a <= _time b)%Z) ts.

(** The engine's order, on points. *)
Definition pos_le {K A : Type} (a b : Point K A) : Prop :=
  pos_leb (pos a) (pos b) = true.

(** The delay of [shift_by] in the notebook, which is also the length of
    its trailing windows. *)
Definition shift_delay : Z := timedelta_seconds 1.

(** The points of [history] at time [t]. *)
Definition emitted_at (t : Z) (file : list Message) : list (Point Key history_t) :=
  filter (fun r => (p_time r =? t)%Z) (history file).



(** The events [collect(max=20)] holds at message point [q]: the last up to
    20 message points of the entity of [q] that are not after [q]. *)
Definition snapshot_events (file : list Message) (q : Point Key Message)
  : list (Point Key Message) :=
  lastn 20 (engine.upto q (message_points file)).

(** The message points in the trailing window at point [p], before the
    bound on their number applies. *)
Definition window_points {B : Type} (file : list Message) (p : Point Key B)
  : list (Point Key Message) :=
  filter (fun q => (p_time p - timedelta_seconds 1 <? p_time q)%Z)
         (engine.upto p (message_points file)).

(** User [u] wrote message [m] or reacted to it. *)
Definition engages (u : UserId) (m : Message) : Prop :=
  user m = u \/ exists re, In re (reactions m) /\ In u (users re).

(** Timestamps are nanoseconds since the epoch that fit in 64 bits. *)
Definition well_timed (file : list Message) : Prop :=
  Forall (fun m => (0 <= ts_parsed m <= int64_max)%Z) file.

(** The order of [sorted], and its strict part. *)
Definition string_le (a b : string) : Prop := String.leb a b = true.

Definition string_lt (a b : string) : Prop := String.ltb a b = true.

(** The completion as the specification words it: the indices in ascending
    numeric order. *)
Fixpoint insert_ascending (n : nat) (l : list nat) : list nat :=
  match l with
  | [] => [n]
  | m :: l' => if (n <=? m)%nat then n :: l else m :: insert_ascending n l'
  end.

Definition ascending (l : list nat) : list nat :=
  fold_right insert_ascending [] l.

Definition sorted_completion (le0 : LabelEncoder.t) (engaged_users : list UserId)
  : result string :=
  body <- (if (0 <? List.length engaged_users)%nat
           then idx <- LabelEncoder.transform le0 engaged_users ;;
                Ok (String.concat " " (map str (ascending idx)))
           else Ok "nil"%string) ;;
  Ok (" " ++ body ++ " end")%string.


(* ------------------------------------------------------------------ *)
(** * Reading a completion back

    The notebook only writes completions; a reader of [examples.jsonl] and
    [labels_.json] splits a completion at its spaces, drops the end marker,
    and looks the remaining integers up in the list of labels. *)

Fixpoint has_space (s : string) : bool :=
  match s with
  | EmptyString => false
  | String c s' => Ascii.eqb c " "%char || has_space s'
  end.

(** [s.split(" ")] *)
Fixpoint split_space (s : string) : list string :=
  match s with
  | EmptyString => [EmptyString]
  | String c s' =>
      if Ascii.eqb c " "%char then EmptyString :: split_space s'
      else match split_space s' with
           | w :: ws => String c w :: ws
           | [] => [String c EmptyString]
           end
  end.

(** [s.split()], for a string whose only white space is the space. *)
Definition words (s : string) : list string :=
  filter (fun w => negb (String.eqb w ""%string)) (split_space s).

(** [int(tok)] for a string of decimal digits. *)
Definition parse_index (tok : string) : option nat :=
  option_map Nat.of_uint (NilEmpty.uint_of_string tok).

Fixpoint decode_indices (classes : list Label) (toks : list string) : option (list Label) :=
  match toks with
  | [] => Some []
  | t :: toks' =>
      match parse_index t with
      | None => None
      | Some i =>
          match nth_error classes i, decode_indices classes toks' with
          | Some l, Some ls => Some (l :: ls)
          | _, _ => None
          end
      end
  end.

(** The words before the end marker: the sentinel alone stands for no
    user. *)
Definition decode_words (classes : list Label) (toks : list string)
  : option (list Label) :=
  match toks with
  | [t] => if String.eqb t "nil"%string then Some []
           else decode_indices classes toks
  | _ => decode_indices classes toks
  end.

Definition decode_completion (classes : list Label) (completion : string)
  : option (list Label) :=
  match rev (words completion) with
  | e :: rbody =>
      if String.eqb e "end"%string then decode_words classes (rev rbody)
      else None
  | [] => None
  end.

(* ------------------------------------------------------------------ *)
(** * Inputs used as examples *)


(** A burst of 102 messages in one channel, one nanosecond apart, each by
    its own user. *)
Definition burst : list Message :=
  map (fun i => mkMessage "ch1"%string None (Z.of_nat i) (str i) (str i) ""%string [])
      (seq 0 102).

Definition burst_first : Point Key history_t :=
  nth 0 (history burst) (mkPoint 0%Z 0 ch1 (mkHistory None [])).




(** A point without its subsort: the row of the timestream. *)
Definition row_of_point {K A : Type} (p : Point K A) : Row K A :=
  mkRow (p_time p) (p_key p) (p_value p).
(* ================================================================== *)
(** * The boolean equalities decide equality *)

Lemma option_eqb_eq {A : Type} (eqb : A -> A -> bool)
    (Heqb : forall x y, eqb x y = true <-> x = y) (a b : option A) :
  option_eqb eqb a b = true <-> a = b.
Proof.
  destruct a as [x|], b as [y|]; simpl; try (split; congruence).
  rewrite Heqb. split; congruence.
Qed.

Lemma Key_eqb_eq (a b : Key) : Key_eqb a b = true <-> a = b.
Proof.
  destruct a as [c1 t1], b as [c2 t2]; unfold Key_eqb; simpl.
  rewrite andb_true_iff, String.eqb_eq, (option_eqb_eq _ String.eqb_eq).
  split; [intros [-> ->]; reflexivity | intros [= -> ->]; auto].
Qed.

#[export] Instance EqKeyLaws_string : EqKeyLaws string.
Proof. constructor. exact String.eqb_eq. Qed.

#[export] Instance EqKeyLaws_Key : EqKeyLaws Key.
Proof. constructor. exact Key_eqb_eq. Qed.

(* ================================================================== *)
(** * Facts about the list helpers *)

Lemma lastn_length {A : Type} (n : nat) (l : list A) :
  List.length (lastn n l) <= n.
Proof. unfold lastn. rewrite length_skipn. lia. Qed.

Lemma lastn_suffix {A : Type} (n : nat) (l : list A) :
  exists pre, l = pre ++ lastn n l.
Proof.
  exists (firstn (List.length l - n) l). unfold lastn.
  symmetry. apply firstn_skipn.
Qed.

Lemma lastn_In {A : Type} (n : nat) (l : list A) (x : A) :
  In x (lastn n l) -> In x l.
Proof.
  destruct (lastn_suffix n l) as [pre Hpre]. intro Hin.
  rewrite Hpre. apply in_or_app. now right.
Qed.

Lemma lastn_all {A : Type} (n : nat) (l : list A) :
  List.length l <= n -> lastn n l = l.
Proof.
  intro Hle. unfold lastn.
  replace (List.length l - n) with 0 by lia. reflexivity.
Qed.

Lemma lastn_map {A B : Type} (f : A -> B) (n : nat) (l : list A) :
  lastn n (map f l) = map f (lastn n l).
Proof. unfold lastn. now rewrite length_map, skipn_map. Qed.


Lemma lastn_length_min {A : Type} (n : nat) (l : list A) :
  List.length (lastn n l) = Nat.min n (List.length l).
Proof. unfold lastn. rewrite length_skipn. lia. Qed.

Lemma dedup_In (seen l : list string) (x : string) :
  In x (dedup seen l) <-> In x l /\ ~ In x seen.
Proof.
  revert seen. induction l as [|y l IH]; intro seen; simpl.
  - tauto.
  - destruct (existsb (String.eqb y) seen) eqn:E.
    + apply existsb_exists in E. destruct E as [z [Hz Hyz]].
      apply String.eqb_eq in Hyz. subst z.
      rewrite IH. split.
      * intros [H1 H2]. auto.
      * intros [[H1|H1] H2]; [subst; contradiction | auto].
    + assert (Hy : ~ In y seen).
      { intro Hin. apply Bool.not_true_iff_false in E. apply E.
        apply existsb_exists. exists y. split; [assumption|apply String.eqb_refl]. }
      simpl. rewrite IH. simpl. split.
      * intros [H1|[H1 H2]]; [subst; auto | split; [auto | intro; apply H2; auto]].
      * intros [[H1|H1] H2]; [auto|].
        destruct (String.eqb_spec y x) as [->|Hne]; [auto|].
        right. split; [assumption|]. intros [H3|H3]; [congruence|contradiction].
Qed.

Lemma dedup_NoDup (seen l : list string) : NoDup (dedup seen l).
Proof.
  revert seen. induction l as [|y l IH]; intro seen; simpl.
  - constructor.
  - destruct (existsb (String.eqb y) seen); [apply IH|].
    constructor; [|apply IH].
    rewrite dedup_In. intros [_ Hn]. apply Hn. now left.
Qed.

Lemma union_In (a b : list string) (x : string) :
  In x (kt.union a b) <-> In x a \/ In x b.
Proof.
  unfold kt.union. rewrite dedup_In, in_app_iff. simpl. tauto.
Qed.

Lemma filter_all {A : Type} (p : A -> bool) (l : list A) :
  Forall (fun x => p x = true) l -> filter p l = l.
Proof.
  induction 1 as [|x l Hx _ IH]; simpl; [reflexivity|].
  now rewrite Hx, IH.
Qed.

(* ================================================================== *)
(** * The message stream *)

Section RowFacts.
Context {K : Type} `{EqKeyLaws K}.

Lemma insert_row_In {A : Type} (r x : Row K A) (ts : Timestream K A) :
  In x (kt.insert_row r ts) <-> x = r \/ In x ts.
Proof.
  induction ts as [|y ts IH]; simpl.
  - intuition congruence.
  - destruct (_time y <=? _time r)%Z; simpl; rewrite ?IH; intuition congruence.
Qed.

Lemma merge_In {A : Type} (a b : Timestream K A) (x : Row K A) :
  In x (kt.merge a b) <-> In x a \/ In x b.
Proof.
  unfold kt.merge. revert a. induction b as [|r b IH]; intro a; simpl.
  - tauto.
  - rewrite IH, insert_row_In. intuition congruence.
Qed.

Lemma insert_row_ordered {A : Type} (r : Row K A) (ts : Timestream K A) :
  time_ordered ts -> time_ordered (kt.insert_row r ts).
Proof.
  unfold time_ordered. induction ts as [|y ts IH]; intro Hs; simpl.
  - repeat constructor.
  - inversion Hs as [|? ? Hs' Hall]; subst.
    destruct (_time y <=? _time r)%Z eqn:E.
    + constructor; [auto|].
      apply Forall_forall. intros x Hx. apply insert_row_In in Hx.
      destruct Hx as [->|Hx]; [lia|].
      rewrite Forall_forall in Hall. auto.
    + constructor; [assumption|].
      constructor; [lia|].
      rewrite Forall_forall in Hall |- *. intros x Hx.
      specialize (Hall x Hx). lia.
Qed.

Lemma merge_ordered {A : Type} (a b : Timestream K A) :
  time_ordered a -> time_ordered (kt.merge a b).
Proof.
  unfold kt.merge. revert a. induction b as [|r b IH]; intros a Ha; simpl.
  - assumption.
  - apply IH. now apply insert_row_ordered.
Qed.

Lemma source_In {A : Type} (tc : A -> Z) (kc : A -> K) (rows : list A) (r : Row K A) :
  In r (kt.source tc kc rows) <->
  exists a, In a rows /\ r = mkRow (tc a) (kc a) a.
Proof.
  unfold kt.source. rewrite merge_In, in_map_iff. simpl.
  split.
  - intros [[]|[a [Ha Hin]]]. eauto.
  - intros [a [Hin ->]]. right. eauto.
Qed.

Lemma source_ordered {A : Type} (tc : A -> Z) (kc : A -> K) (rows : list A) :
  time_ordered (kt.source tc kc rows).
Proof. apply merge_ordered. constructor. Qed.

Lemma insert_row_Permutation {A : Type} (r : Row K A) (ts : Timestream K A) :
  Permutation (r :: ts) (kt.insert_row r ts).
Proof.
  induction ts as [|x ts IH]; simpl; [reflexivity|].
  destruct (_time x <=? _time r)%Z; [|reflexivity].
  rewrite perm_swap. now constructor.
Qed.

Lemma merge_Permutation {A : Type} (a b : Timestream K A) :
  Permutation (a ++ b) (kt.merge a b).
Proof.
  unfold kt.merge. revert a. induction b as [|r b IH]; intro a; simpl.
  - now rewrite app_nil_r.
  - rewrite <- IH, <- insert_row_Permutation.
    now rewrite <- Permutation_middle.
Qed.

End RowFacts.

Lemma messages_In (file : list Message) (r : Row Key Message) :
  In r (messages file) <->
  exists m, In m file /\ r = mkRow (ts_parsed m) (message_key m) m.
Proof.
  unfold messages, kt.with_key, Parquet. rewrite in_map_iff. split.
  - intros [x [<- Hx]]. apply source_In in Hx.
    destruct Hx as [m [Hm ->]]. exists m. auto.
  - intros [m [Hm ->]].
    exists (mkRow (ts_parsed m) (channel m) m). split; [reflexivity|].
    apply source_In. eauto.
Qed.

Lemma messages_ordered (file : list Message) : time_ordered (messages file).
Proof.
  unfold messages, kt.with_key.
  pose proof (source_ordered ts_parsed channel file) as Hs.
  fold (Parquet file) in Hs. unfold time_ordered in *.
  induction Hs as [|x l Hs IH Hall]; simpl; constructor; [assumption|].
  rewrite Forall_forall in Hall |- *. intros y Hy.
  apply in_map_iff in Hy. destruct Hy as [z [<- Hz]]. simpl. auto.
Qed.

(** X1. The regrouped message stream holds every row of the file exactly
    once, in time order; each point carries its row's [ts_parsed] as time
    and its channel and thread as key. *)
Theorem messages_permutation (file : list Message) :
  Permutation (map (@value Key Message) (messages file)) file /\
  time_ordered (messages file) /\
  Forall (fun r => _time r = ts_parsed (value r) /\ _key r = message_key (value r))
         (messages file).
Proof.
  split; [|split].
  - unfold messages, kt.with_key, Parquet, kt.source.
    rewrite map_map. simpl.
    rewrite <- (merge_Permutation (K:=string) []). simpl.
    rewrite map_map. simpl. now rewrite map_id.
  - apply messages_ordered.
  - apply Forall_forall. intros r Hr. apply messages_In in Hr.
    destruct Hr as [m [_ ->]]. split; reflexivity.
Qed.

(* ================================================================== *)
(** * The engine's order *)

Lemma pos_leb_iff (a b : Z * nat) :
  pos_leb a b = true <->
  (fst a < fst b)%Z \/ (fst a = fst b /\ snd a <= snd b).
Proof.
  unfold pos_leb.
  rewrite orb_true_iff, andb_true_iff, Z.ltb_lt, Z.eqb_eq, Nat.leb_le.
  reflexivity.
Qed.

Lemma pos_leb_false_iff (a b : Z * nat) :
  pos_leb a b = false <->
  (fst b < fst a)%Z \/ (fst a = fst b /\ snd b < snd a).
Proof.
  rewrite <- Bool.not_true_iff_false, pos_leb_iff. lia.
Qed.

Lemma pos_leb_refl (a : Z * nat) : pos_leb a a = true.
Proof. apply pos_leb_iff. lia. Qed.

Lemma pos_leb_trans (a b c : Z * nat) :
  pos_leb a b = true -> pos_leb b c = true -> pos_leb a c = true.
Proof. rewrite !pos_leb_iff. lia. Qed.


Lemma pos_leb_time (a b : Z * nat) : pos_leb a b = true -> (fst a <= fst b)%Z.
Proof. rewrite pos_leb_iff. lia. Qed.

Section PointFacts.
Context {K : Type} `{EqKeyLaws K}.

(** A list of points in the engine's order. *)
Lemma insert_point_In {A : Type} (r x : Point K A) (ts : list (Point K A)) :
  In x (engine.insert_point r ts) <-> x = r \/ In x ts.
Proof.
  induction ts as [|y ts IH]; simpl.
  - intuition congruence.
  - destruct (pos_leb (pos y) (pos r)); simpl; rewrite ?IH; intuition congruence.
Qed.

Lemma merge_points_In {A : Type} (a b : list (Point K A)) (x : Point K A) :
  In x (engine.merge a b) <-> In x a \/ In x b.
Proof.
  unfold engine.merge. revert a. induction b as [|r b IH]; intro a; simpl.
  - tauto.
  - rewrite IH, insert_point_In. intuition congruence.
Qed.

Lemma insert_point_ordered {A : Type} (r : Point K A) (ts : list (Point K A)) :
  StronglySorted pos_le ts -> StronglySorted pos_le (engine.insert_point r ts).
Proof.
  induction ts as [|y ts IH]; intro Hs; simpl.
  - repeat constructor.
  - inversion Hs as [|? ? Hs' Hall]; subst.
    destruct (pos_leb (pos y) (pos r)) eqn:E.
    + constructor; [auto|].
      apply Forall_forall. intros x Hx. apply insert_point_In in Hx.
      destruct Hx as [->|Hx]; [exact E|].
      rewrite Forall_forall in Hall. auto.
    + assert (Hry : pos_le r y).
      { unfold pos_le. apply pos_leb_false_iff in E. apply pos_leb_iff. lia. }
      constructor; [assumption|].
      constructor; [assumption|].
      rewrite Forall_forall in Hall |- *. intros x Hx.
      eapply pos_leb_trans; [exact Hry|]. now apply Hall.
Qed.

Lemma merge_points_ordered {A : Type} (a b : list (Point K A)) :
  StronglySorted pos_le a -> StronglySorted pos_le (engine.merge a b).
Proof.
  unfold engine.merge. revert a. induction b as [|r b IH]; intros a Ha; simpl.
  - assumption.
  - apply IH. now apply insert_point_ordered.
Qed.

Lemma combine_seq_In {A : Type} (l : list A) (s i : nat) (a : A) :
  In (i, a) (combine (seq s (List.length l)) l) <->
  s <= i /\ nth_error l (i - s) = Some a.
Proof.
  revert s. induction l as [|x l IH]; intro s; simpl.
  - split; [contradiction|]. intros [_ Hn]. destruct (i - s); discriminate.
  - rewrite IH. split.
    + intros [[= <- <-]|[Hle Hn]].
      * split; [lia|]. now rewrite Nat.sub_diag.
      * split; [lia|]. replace (i - s) with (S (i - S s)) by lia. exact Hn.
    + intros [Hle Hn]. destruct (i - s) as [|n] eqn:E.
      * left. simpl in Hn. injection Hn as ->. f_equal. lia.
      * right. split; [lia|]. simpl in Hn. replace (i - S s) with n by lia.
        exact Hn.
Qed.

(** The points of a source: one per row, with the row's index. *)
Lemma source_points_In {A : Type} (tc : A -> Z) (kc : A -> K) (rows : list A)
    (q : Point K A) :
  In q (engine.source tc kc rows) <->
  exists i a, nth_error rows i = Some a /\ q = mkPoint (tc a) i (kc a) a.
Proof.
  unfold engine.source. rewrite merge_points_In, in_map_iff. simpl. split.
  - intros [[]|[[i a] [<- Hin]]]. apply combine_seq_In in Hin.
    destruct Hin as [_ Hn]. rewrite Nat.sub_0_r in Hn. exists i, a. auto.
  - intros (i & a & Hn & ->). right. exists (i, a). split; [reflexivity|].
    apply combine_seq_In. rewrite Nat.sub_0_r. split; [lia|assumption].
Qed.

Lemma source_points_ordered {A : Type} (tc : A -> Z) (kc : A -> K) (rows : list A) :
  StronglySorted pos_le (engine.source tc kc rows).
Proof. apply merge_points_ordered. constructor. Qed.

Lemma upto_In {A B : Type} (p : Point K B) (ts : list (Point K A)) (q : Point K A) :
  In q (engine.upto p ts) <->
  In q ts /\ p_key q = p_key p /\ pos_leb (pos q) (pos p) = true.
Proof.
  unfold engine.upto. now rewrite filter_In, andb_true_iff, keqb_eq.
Qed.

Lemma latest_None {A : Type} (l : list (Point K A)) :
  engine.latest l = None <-> l = [].
Proof.
  split; [|intros ->; reflexivity].
  destruct l as [|x l]; [reflexivity|]. simpl.
  destruct (engine.latest l) as [y|]; [|discriminate].
  destruct (pos_leb (pos x) (pos y)); discriminate.
Qed.

Lemma latest_Some {A : Type} (l : list (Point K A)) (y : Point K A) :
  engine.latest l = Some y -> In y l /\ Forall (fun x => pos_le x y) l.
Proof.
  revert y. induction l as [|x l IH]; intros y; simpl; [discriminate|].
  destruct (engine.latest l) as [z|] eqn:E.
  - destruct (IH z eq_refl) as [Hz Hall].
    destruct (pos_leb (pos x) (pos z)) eqn:Exz; intros [= <-].
    + split; [now right|]. constructor; assumption.
    + assert (Hzx : pos_le z x).
      { unfold pos_le. apply pos_leb_false_iff in Exz. apply pos_leb_iff. lia. }
      split; [now left|]. constructor; [apply pos_leb_refl|].
      rewrite Forall_forall in Hall |- *. intros w Hw.
      eapply pos_leb_trans; [now apply Hall|exact Hzx].
  - intros [= <-]. split; [now left|].
    apply latest_None in E. subst l.
    constructor; [apply pos_leb_refl|constructor].
Qed.

Lemma ordered_time {A : Type} (l : list (Point K A)) :
  StronglySorted pos_le l ->
  StronglySorted (fun a b => (p_time a <= p_time b)%Z) l.
Proof.
  induction 1 as [|x l Hs IH Hall]; constructor; [assumption|].
  rewrite Forall_forall in Hall |- *. intros y Hy.
  exact (pos_leb_time _ _ (Hall y Hy)).
Qed.

Lemma ordered_filter {A : Type} (f : Point K A -> bool) (l : list (Point K A)) :
  StronglySorted pos_le l -> StronglySorted pos_le (filter f l).
Proof.
  induction 1 as [|x l Hs IH Hall]; simpl; [constructor|].
  destruct (f x); [|assumption].
  constructor; [assumption|].
  rewrite Forall_forall in Hall |- *. intros y Hy.
  apply filter_In in Hy. apply Hall. tauto.
Qed.




Lemma ordered_map {A B : Type} (g : Point K A -> Point K B) (l : list (Point K A)) :
  (forall x y, pos_le x y -> pos_le (g x) (g y)) ->
  StronglySorted pos_le l -> StronglySorted pos_le (map g l).
Proof.
  intros Hg. induction 1 as [|x l Hs IH Hall]; simpl; constructor; [assumption|].
  rewrite Forall_forall in Hall |- *. intros y Hy.
  apply in_map_iff in Hy. destruct Hy as [z [<- Hz]]. apply Hg. now apply Hall.
Qed.


End PointFacts.
(* ================================================================== *)
(** * Facts about the notebook's timestreams *)

Lemma message_points_In (file : list Message) (q : Point Key Message) :
  In q (message_points file) <->
  exists i m, nth_error file i = Some m /\
              q = mkPoint (ts_parsed m) i (message_key m) m.
Proof.
  unfold message_points, engine.with_key. rewrite in_map_iff. split.
  - intros [x [<- Hx]]. apply source_points_In in Hx.
    destruct Hx as (i & m & Hn & ->). exists i, m. auto.
  - intros (i & m & Hn & ->).
    exists (mkPoint (ts_parsed m) i (channel m) m). split; [reflexivity|].
    apply source_points_In. eauto.
Qed.

Lemma message_points_ordered (file : list Message) :
  StronglySorted pos_le (message_points file).
Proof.
  unfold message_points, engine.with_key.
  pose proof (source_points_ordered ts_parsed channel file) as Hs.
  induction Hs as [|x l Hs IH Hall]; simpl; constructor; [assumption|].
  rewrite Forall_forall in Hall |- *. intros y Hy.
  apply in_map_iff in Hy. destruct Hy as [z [<- Hz]]. exact (Hall z Hz).
Qed.


Lemma message_points_time (file : list Message) (q : Point Key Message) :
  In q (message_points file) ->
  p_time q = ts_parsed (p_value q) /\ p_key q = message_key (p_value q) /\
  In (p_value q) file.
Proof.
  intro Hq. apply message_points_In in Hq. destruct Hq as (i & m & Hn & ->).
  simpl. repeat split. eapply nth_error_In; eassumption.
Qed.

Lemma upto_map_values {A B C : Type} (f : A -> B) (p : Point Key C)
    (ts : list (Point Key A)) :
  engine.upto p (engine.map_values f ts) = engine.map_values f (engine.upto p ts).
Proof.
  unfold engine.upto, engine.map_values. rewrite filter_map_swap. reflexivity.
Qed.

(** The conversation collected at message point [q]. *)
Lemma conversations_In (file : list Message) (c : Point Key (list Sel.t)) :
  In c (conversations file) <->
  exists q, In q (message_points file) /\
            c = mkPoint (p_time q) (p_subsort q) (p_key q)
                  (map select (map (@p_value Key Message) (snapshot_events file q))).
Proof.
  unfold conversations, engine.collect. rewrite in_map_iff.
  assert (Hval : forall q : Point Key Message,
             map (@p_value Key Sel.t)
               (lastn 20
                  (engine.upto
                     (mkPoint (p_time q) (p_subsort q) (p_key q) (select (p_value q)))
                     (engine.map_values select (message_points file))))
             = map select (map (@p_value Key Message) (snapshot_events file q))).
  { intro q. rewrite upto_map_values. unfold engine.map_values, snapshot_events.
    rewrite lastn_map, !map_map. reflexivity. }
  split.
  - intros [q' [<- Hq']]. unfold engine.map_values in Hq'.
    apply in_map_iff in Hq'. destruct Hq' as [q [<- Hq]].
    exists q. split; [assumption|]. simpl. now rewrite Hval.
  - intros [q [Hq ->]].
    exists (mkPoint (p_time q) (p_subsort q) (p_key q) (select (p_value q))).
    split; [simpl; now rewrite Hval|].
    unfold engine.map_values. apply in_map_iff. eauto.
Qed.

(** The shifted conversations: one per message point whose shifted time
    exists. *)
Lemma shifted_conversations_In (file : list Message) (s : Point Key (list Sel.t)) :
  In s (shifted_conversations file) <->
  exists q, In q (message_points file) /\
            (p_time q + shift_delay <= int64_max)%Z /\
            s = mkPoint (p_time q + shift_delay)%Z (p_subsort q) (p_key q)
                  (map select (map (@p_value Key Message) (snapshot_events file q))).
Proof.
  unfold shifted_conversations, engine.shift_by.
  rewrite filter_In, in_map_iff. split.
  - intros [[c [<- Hc]] Hle]. apply conversations_In in Hc.
    destruct Hc as [q [Hq ->]]. simpl in *. apply Z.leb_le in Hle.
    exists q. auto.
  - intros (q & Hq & Hle & ->). split.
    + exists (mkPoint (p_time q) (p_subsort q) (p_key q)
                (map select (map (@p_value Key Message) (snapshot_events file q)))).
      split; [reflexivity|]. apply conversations_In. eauto.
    + simpl. now apply Z.leb_le.
Qed.

Lemma history_points_In (file : list Message) (p : Point Key unit) :
  In p (history_points file) <->
  (exists s, In s (shifted_conversations file) /\
             p = mkPoint (p_time s) (p_subsort s) (p_key s) tt) \/
  (exists q, In q (message_points file) /\
             p = mkPoint (p_time q) (p_subsort q) (p_key q) tt).
Proof.
  unfold history_points, engine.map_values.
  rewrite merge_points_In, !in_map_iff.
  split; (intros [[x [Hx Hin]]|[x [Hx Hin]]]; [left|right]; exists x; auto).
Qed.

Lemma shifted_conversations_ordered (file : list Message) :
  StronglySorted pos_le (shifted_conversations file).
Proof.
  unfold shifted_conversations, engine.shift_by, conversations, engine.collect,
    engine.map_values.
  apply ordered_filter.
  apply ordered_map.
  { intros x y Hxy. unfold pos_le, pos in *. simpl.
    apply pos_leb_iff in Hxy. apply pos_leb_iff. simpl in *. lia. }
  apply ordered_map; [intros x y Hxy; exact Hxy|].
  apply ordered_map; [intros x y Hxy; exact Hxy|].
  apply message_points_ordered.
Qed.

Lemma history_points_ordered (file : list Message) :
  StronglySorted pos_le (history_points file).
Proof.
  unfold history_points. apply merge_points_ordered.
  unfold engine.map_values.
  apply ordered_map; [intros x y Hxy; exact Hxy|].
  apply shifted_conversations_ordered.
Qed.

(** The conversation a point of the record holds, when it holds one, is the
    one collected at a message point [q] of the same entity whose shifted
    point is not after the point. *)
Lemma as_of_shifted (file : list Message) {B : Type} (p : Point Key B)
    (c : list Sel.t) :
  engine.as_of (shifted_conversations file) p = Some c ->
  exists q, In q (message_points file) /\
            p_key q = p_key p /\
            (p_time q + shift_delay <= int64_max)%Z /\
            pos_leb (p_time q + shift_delay, p_subsort q)%Z (pos p) = true /\
            c = map select (map (@p_value Key Message) (snapshot_events file q)).
Proof.
  unfold engine.as_of.
  destruct (engine.latest (engine.upto p (shifted_conversations file)))
    as [s|] eqn:E; simpl; [|discriminate].
  intros [= <-]. apply latest_Some in E. destruct E as [Hs _].
  apply upto_In in Hs. destruct Hs as (Hs & Hk & Hle).
  apply shifted_conversations_In in Hs. destruct Hs as (q & Hq & Hfit & ->).
  exists q. simpl in *. auto.
Qed.


(** Where a point of [history] comes from: it stands at the point, or at
    the shifted point, of a message [x], and it carries the conversation
    collected at a message point [q]. *)
Lemma history_In (file : list Message) (r : Point Key history_t) :
  In r (history file) <->
  exists p c,
    In p (history_points file) /\
    engine.as_of (shifted_conversations file) p = Some c /\
    r = mkPoint (p_time p) (p_subsort p) (p_key p)
          {| conversation := Some c;
             engaged_users :=
               kt.union (reaction_users file p) (participating_users file p) |}.
Proof.
  unfold history, history_record. rewrite filter_In, in_map_iff. split.
  - intros [[p [<- Hp]] Hnn]. simpl in Hnn.
    destruct (engine.as_of (shifted_conversations file) p) as [c|] eqn:E;
      [|discriminate].
    exists p, c. auto.
  - intros (p & c & Hp & Hc & ->). split.
    + exists p. split; [now rewrite Hc|assumption].
    + reflexivity.
Qed.

Lemma history_row (file : list Message) (r : Point Key history_t) :
  In r (history file) ->
  (exists x, In x (message_points file) /\
             p_key x = p_key r /\ p_subsort x = p_subsort r /\
             (p_time r = p_time x \/
              (p_time r = p_time x + shift_delay /\
               p_time x + shift_delay <= int64_max))%Z) /\
  (exists q, In q (message_points file) /\
             p_key q = p_key r /\
             (p_time q + shift_delay <= int64_max)%Z /\
             pos_leb (p_time q + shift_delay, p_subsort q)%Z (pos r) = true /\
             conversation (p_value r)
             = Some (map select (map (@p_value Key Message) (snapshot_events file q)))) /\
  engaged_users (p_value r)
  = kt.union (reaction_users file r) (participating_users file r).
Proof.
  intro Hr. apply history_In in Hr. destruct Hr as (p & c & Hp & Hc & ->).
  simpl. split; [|split; [|reflexivity]].
  - apply history_points_In in Hp. destruct Hp as [(s & Hs & ->)|(x & Hx & ->)].
    + apply shifted_conversations_In in Hs. destruct Hs as (x & Hx & Hfit & ->).
      exists x. simpl. auto 10.
    + exists x. simpl. auto.
  - apply as_of_shifted in Hc. destruct Hc as (q & Hq & Hk & Hfit & Hle & ->).
    exists q. auto 10.
Qed.

(* ================================================================== *)
(** * Facts about snapshots *)



Lemma snapshot_events_In (file : list Message) (q e : Point Key Message) :
  In e (snapshot_events file q) ->
  In e (message_points file) /\ p_key e = p_key q /\
  pos_leb (pos e) (pos q) = true.
Proof. intro He. apply lastn_In in He. now apply upto_In in He. Qed.




(* ================================================================== *)
(** * Facts about engagement *)

Lemma trailing_messages_eq {B : Type} (file : list Message) (p : Point Key B) :
  trailing_messages file p
  = map (@p_value Key Message) (lastn 100 (window_points file p)).
Proof. reflexivity. Qed.

Lemma window_points_In {B : Type} (file : list Message) (p : Point Key B)
    (q : Point Key Message) :
  In q (window_points file p) <->
  In q (message_points file) /\ p_key q = p_key p /\
  pos_leb (pos q) (pos p) = true /\
  (p_time p - shift_delay < p_time q)%Z.
Proof.
  unfold window_points. rewrite filter_In, upto_In, Z.ltb_lt.
  unfold shift_delay. tauto.
Qed.

Lemma window_points_ordered {B : Type} (file : list Message) (p : Point Key B) :
  StronglySorted pos_le (window_points file p).
Proof.
  unfold window_points, engine.upto.
  apply ordered_filter, ordered_filter, message_points_ordered.
Qed.

(** The engagement list holds exactly the authors and reactors of the
    collected messages. *)
Lemma engaged_In {B : Type} (file : list Message) (p : Point Key B) (u : UserId) :
  In u (kt.union (reaction_users file p) (participating_users file p)) <->
  exists m, In m (trailing_messages file p) /\ engages u m.
Proof.
  rewrite union_In. unfold reaction_users, participating_users, kt.flatten, engages.
  rewrite in_concat, in_map_iff. split.
  - intros [(us & Hus & Hu)|(m & <- & Hm)].
    + apply in_map_iff in Hus. destruct Hus as (re & <- & Hre).
      apply in_concat in Hre. destruct Hre as (res & Hres & Hre).
      apply in_map_iff in Hres. destruct Hres as (m & <- & Hm).
      exists m. split; [assumption|]. right. eauto.
    + exists m. auto.
  - intros (m & Hm & [<-|(re & Hre & Hu)]).
    + right. eauto.
    + left. exists (users re). split; [|assumption].
      apply in_map. apply in_concat. exists (reactions m). split; [|assumption].
      now apply in_map.
Qed.

(* ================================================================== *)
(** * Facts about the label encoder *)

Lemma Label_eqb_eq (a b : Label) : Label_eqb a b = true <-> a = b.
Proof.
  destruct a as [u|], b as [v|]; simpl; try (split; congruence).
  rewrite String.eqb_eq. split; congruence.
Qed.

Lemma insert_sorted_In (x y : string) (l : list string) :
  In y (insert_sorted x l) <-> y = x \/ In y l.
Proof.
  induction l as [|z l IH]; simpl.
  - intuition congruence.
  - destruct (String.leb x z); simpl; rewrite ?IH; intuition congruence.
Qed.

Lemma sorted_In (y : string) (l : list string) : In y (sorted l) <-> In y l.
Proof.
  induction l as [|x l IH]; simpl; [tauto|].
  rewrite insert_sorted_In, IH. intuition congruence.
Qed.

Lemma explode_In (column : list (list UserId)) (u : UserId) :
  In (User u) (explode column) <-> exists l, In l column /\ In u l.
Proof.
  unfold explode. rewrite in_flat_map. split.
  - intros [l [Hl Hu]]. exists l. split; [assumption|].
    destruct l as [|v l]; [simpl in Hu; intuition discriminate|].
    apply in_map_iff in Hu. destruct Hu as [w [[= ->] Hw]]. assumption.
  - intros [l [Hl Hu]]. exists l. split; [assumption|].
    destruct l as [|v l]; [contradiction|].
    apply in_map_iff. eauto.
Qed.

Lemma user_labels_In (y : list Label) (u : UserId) :
  In u (LabelEncoder.user_labels y) <-> In (User u) y.
Proof.
  unfold LabelEncoder.user_labels. rewrite in_flat_map. split.
  - intros [[v|] [Hl Hu]]; simpl in Hu; [|contradiction].
    destruct Hu as [->|[]]. assumption.
  - intro Hin. exists (User u). simpl. auto.
Qed.

(** The fitted classes hold exactly the users of the fitted column. *)
Lemma fit_In (y : list Label) (u : UserId) :
  In (User u) (LabelEncoder.classes_ (LabelEncoder.fit y)) <-> In (User u) y.
Proof.
  unfold LabelEncoder.fit, LabelEncoder.classes_of. simpl.
  rewrite in_app_iff, in_map_iff. split.
  - intros [[v [[= ->] Hv]]|Hnan].
    + apply sorted_In, dedup_In in Hv. now apply user_labels_In.
    + destruct (LabelEncoder.has_missing y); simpl in Hnan; intuition discriminate.
  - intro Hin. left. exists u. split; [reflexivity|].
    apply sorted_In, dedup_In. split; [now apply user_labels_In|auto].
Qed.

Lemma index_of_In (x : Label) (classes : list Label) :
  In x classes -> exists i, LabelEncoder.index_of x classes = Some i.
Proof.
  induction classes as [|c cs IH]; simpl; [contradiction|].
  intros [->|Hin].
  - exists 0. now rewrite (proj2 (Label_eqb_eq x x) eq_refl).
  - destruct (Label_eqb x c); [eauto|].
    destruct (IH Hin) as [i ->]. eauto.
Qed.

(** Decoding an index gives back the label it was assigned to. *)
Lemma index_of_nth_error (x : Label) (classes : list Label) (i : nat) :
  LabelEncoder.index_of x classes = Some i -> nth_error classes i = Some x.
Proof.
  revert i. induction classes as [|c cs IH]; intros i; simpl; [discriminate|].
  destruct (Label_eqb x c) eqn:E.
  - intros [= <-]. apply Label_eqb_eq in E. now subst.
  - destruct (LabelEncoder.index_of x cs) as [j|]; [|discriminate].
    intros [= <-]. simpl. now apply IH.
Qed.

Lemma index_of_None (x : Label) (classes : list Label) :
  LabelEncoder.index_of x classes = None <-> ~ In x classes.
Proof.
  split.
  - intros Hn Hin. destruct (index_of_In _ _ Hin) as [i Hi]. congruence.
  - intro Hn. destruct (LabelEncoder.index_of x classes) as [i|] eqn:E;
      [|reflexivity].
    exfalso. apply Hn. apply index_of_nth_error in E.
    eapply nth_error_In; eassumption.
Qed.

Lemma mapM_Ok {A B : Type} (f : A -> result B) (l : list A) :
  Forall (fun a => exists b, f a = Ok b) l -> exists bs, mapM f l = Ok bs.
Proof.
  induction 1 as [|a l [b Hb] _ [bs Hbs]]; simpl; [eauto|].
  rewrite Hb. simpl. rewrite Hbs. simpl. eauto.
Qed.

Lemma mapM_Forall2 {A B : Type} (f : A -> result B) (l : list A) (bs : list B) :
  mapM f l = Ok bs -> Forall2 (fun a b => f a = Ok b) l bs.
Proof.
  revert bs. induction l as [|a l IH]; intros bs; simpl.
  - intros [= <-]. constructor.
  - destruct (f a) as [b|e] eqn:Ea; simpl; [|discriminate].
    destruct (mapM f l) as [bs'|e] eqn:El; simpl; [|discriminate].
    intros [= <-]. constructor; auto.
Qed.

Lemma mapM_Raise {A B : Type} (f : A -> result B) (l : list A) (e : exn) :
  mapM f l = Raise e -> exists a, In a l /\ f a = Raise e.
Proof.
  induction l as [|a l IH]; simpl; [discriminate|].
  destruct (f a) as [b|e'] eqn:Ea; simpl.
  - destruct (mapM f l) as [bs|e'] eqn:El; simpl; [discriminate|].
    intros [= ->]. destruct (IH eq_refl) as [a' [Ha' Hf]]. eauto.
  - intros [= ->]. eauto.
Qed.

Lemma Forall2_In_r {A B : Type} (P : A -> B -> Prop) (l : list A) (l' : list B)
    (b : B) :
  Forall2 P l l' -> In b l' -> exists a, In a l /\ P a b.
Proof.
  induction 1 as [|x y l l' Hxy _ IH]; simpl; [contradiction|].
  intros [<-|Hin]; [eauto|].
  destruct (IH Hin) as [a [Ha Hab]]. eauto.
Qed.

Lemma Forall2_In_l {A B : Type} (P : A -> B -> Prop) (l : list A) (l' : list B)
    (a : A) :
  Forall2 P l l' -> In a l -> exists b, In b l' /\ P a b.
Proof.
  induction 1 as [|x y l l' Hxy _ IH]; simpl; [contradiction|].
  intros [<-|Hin]; [eauto|].
  destruct (IH Hin) as [b [Hb Hab]]. eauto.
Qed.

Lemma Forall2_length_eq {A B : Type} (P : A -> B -> Prop) (l : list A) (l' : list B) :
  Forall2 P l l' -> List.length l = List.length l'.
Proof. induction 1; simpl; congruence. Qed.

Lemma Forall2_NoDup {A B : Type} (P : A -> B -> Prop) (l : list A) (l' : list B) :
  (forall a a' b, P a b -> P a' b -> a = a') ->
  Forall2 P l l' -> NoDup l -> NoDup l'.
Proof.
  intros Hinj HF. induction HF as [|a b l l' Hab HF IH]; intro Hnd;
    [constructor|].
  inversion Hnd as [|? ? Ha Hnd']; subst. constructor; [|auto].
  intro Hin. destruct (@Forall2_In_r _ _ _ _ _ b HF Hin) as [a' [Ha' Ha'b]].
  rewrite (Hinj a a' b Hab Ha'b) in Ha. contradiction.
Qed.

Lemma transform_Forall2 (le0 : LabelEncoder.t) (y : list UserId) (idx : list nat) :
  LabelEncoder.transform le0 y = Ok idx ->
  Forall2 (fun u i => LabelEncoder.index_of (User u) (LabelEncoder.classes_ le0) = Some i)
          y idx.
Proof.
  intro Ht. apply mapM_Forall2 in Ht.
  induction Ht as [|u i y idx Hui _ IH]; constructor; [|assumption].
  destruct (LabelEncoder.index_of (User u) (LabelEncoder.classes_ le0));
    congruence.
Qed.

Lemma transform_Ok (le0 : LabelEncoder.t) (y : list UserId) :
  Forall (fun u => In (User u) (LabelEncoder.classes_ le0)) y ->
  exists idx, LabelEncoder.transform le0 y = Ok idx.
Proof.
  intro Hall. apply mapM_Ok.
  rewrite Forall_forall in Hall |- *. intros u Hu.
  destruct (index_of_In _ _ (Hall u Hu)) as [i ->]. eauto.
Qed.

(** Every engaged user of every row of a frame is among the classes fitted
    on that frame. *)
Lemma frame_fitted (df : list history_t) (h : history_t) (u : UserId) :
  In h df -> In u (engaged_users h) ->
  In (User u) (LabelEncoder.classes_ (fit_frame df)).
Proof.
  intros Hh Hu. unfold fit_frame. apply fit_In, explode_In.
  exists (engaged_users h). split; [|assumption].
  now apply in_map.
Qed.

(* ================================================================== *)
(** * The formatting functions *)

(** C5. For an empty engagement list the completion is the sentinel
    ["nil"] between the leading space and the end marker, whatever the
    encoder holds; in particular it is not the empty string. *)
Theorem format_completion_empty (le0 : LabelEncoder.t) :
  format_completion le0 [] = Ok (" " ++ "nil" ++ " end")%string /\
  format_completion le0 [] = Ok " nil end"%string /\
  format_completion le0 [] <> Ok ""%string.
Proof.
  repeat split. discriminate.
Qed.

Lemma format_completion_transform (le0 : LabelEncoder.t) (eu : list UserId)
    (idx : list nat) :
  eu <> [] ->
  LabelEncoder.transform le0 eu = Ok idx ->
  format_completion le0 eu
  = Ok (" " ++ String.concat " " (map str idx) ++ " end")%string.
Proof.
  intros Hne Ht. unfold format_completion.
  destruct eu as [|u eu]; [congruence|].
  cbn [List.length Nat.ltb Nat.leb]. rewrite Ht. reflexivity.
Qed.

(** Shared by the statements on completions: on the rows of a frame,
    [transform] of the encoder fitted on the frame succeeds. *)
Lemma frame_transform_Ok (df : list history_t) (h : history_t) :
  In h df ->
  exists idx, LabelEncoder.transform (fit_frame df) (engaged_users h) = Ok idx.
Proof.
  intro Hh. apply transform_Ok. apply Forall_forall. intros u Hu.
  eapply frame_fitted; eassumption.
Qed.

Lemma frame_completion_Ok (df : list history_t) (h : history_t) :
  In h df ->
  exists s, format_completion (fit_frame df) (engaged_users h) = Ok s.
Proof.
  intro Hh. destruct (frame_transform_Ok df h Hh) as [idx Hidx].
  destruct (engaged_users h) as [|u eu] eqn:E.
  - eexists. reflexivity.
  - erewrite format_completion_transform; [eauto|discriminate|eassumption].
Qed.

Lemma format_prompt_Raise (c : option (list Sel.t)) (e : exn) :
  format_prompt c = Raise e -> e = TypeError /\ c = None.
Proof. destruct c; simpl; [discriminate|]. intros [= <-]. auto. Qed.

(** Building the examples of a frame with the encoder fitted on it can only
    fail on a null conversation. *)
Lemma encode_frame (df : list history_t) :
  (exists examples, encode (fit_frame df) df = Ok examples) \/
  (encode (fit_frame df) df = Raise TypeError /\
   exists h, In h df /\ conversation h = None).
Proof.
  unfold encode.
  destruct (mapM format_prompt (map conversation df)) as [ps|e] eqn:Ep; simpl.
  - destruct (@mapM_Ok _ _ (format_completion (fit_frame df))
                (map engaged_users df)) as [cs Hcs].
    { apply Forall_forall. intros c Hc. apply in_map_iff in Hc.
      destruct Hc as [h [<- Hh]]. now apply frame_completion_Ok. }
    rewrite Hcs. simpl. eauto.
  - right. apply mapM_Raise in Ep. destruct Ep as [c [Hc He]].
    apply format_prompt_Raise in He. destruct He as [-> ->].
    split; [reflexivity|]. apply in_map_iff in Hc.
    destruct Hc as [h [Hh Hin]]. eauto.
Qed.

(** C9. Every engaged user of every example of a corpus has an index in
    the encoder fitted on that corpus, so [transform] never meets an unseen
    label: every completion of the corpus is built, and building the
    examples never raises [ValueError]. *)
Theorem transform_never_unseen (df : list history_t) :
  Forall (fun h =>
            Forall (fun u => exists i,
                        LabelEncoder.index_of (User u)
                          (LabelEncoder.classes_ (fit_frame df)) = Some i)
                   (engaged_users h) /\
            (exists idx,
                LabelEncoder.transform (fit_frame df) (engaged_users h) = Ok idx) /\
            (exists s, format_completion (fit_frame df) (engaged_users h) = Ok s))
         df /\
  encode (fit_frame df) df <> Raise ValueError.
Proof.
  split.
  - apply Forall_forall. intros h Hh. repeat split.
    + apply Forall_forall. intros u Hu. apply index_of_In.
      eapply frame_fitted; eassumption.
    + now apply frame_transform_Ok.
    + now apply frame_completion_Ok.
  - destruct (encode_frame df) as [[exs ->]|[-> _]]; discriminate.
Qed.

(** C2, as the code has it.  For every example of a corpus with a non-empty
    engagement list the completion is a space, the space-joined vocabulary
    indices of the engaged users in the order of the engagement list (the
    indices are not sorted), and the end marker. *)
Theorem format_completion_list_order (df : list history_t) (h : history_t) :
  In h df ->
  engaged_users h <> [] ->
  exists idx,
    Forall2 (fun u i =>
               LabelEncoder.index_of (User u)
                 (LabelEncoder.classes_ (fit_frame df)) = Some i)
            (engaged_users h) idx /\
    format_completion (fit_frame df) (engaged_users h)
    = Ok (" " ++ String.concat " " (map str idx) ++ " end")%string.
Proof.
  intros Hh Hne.
  destruct (frame_transform_Ok df h Hh) as [idx Hidx].
  exists idx. split.
  - now apply transform_Forall2.
  - now apply format_completion_transform.
Qed.

(** C2 fails as stated: in the scenario of two messages the example emitted
    at the point of the second message has the engagement list [C; B]; its
    completion lists the indices as 1 0, not in ascending order. *)
Lemma completion_not_ascending :
  In (mkHistory (Some [select ev0]) ["C"; "B"]%string) (history_rows [ev0; ev1]) /\
  format_completion (le [ev0; ev1]) ["C"; "B"]%string = Ok " 1 0 end"%string /\
  sorted_completion (le [ev0; ev1]) ["C"; "B"]%string = Ok " 0 1 end"%string /\
  format_completion (le [ev0; ev1]) ["C"; "B"]%string
  <> sorted_completion (le [ev0; ev1]) ["C"; "B"]%string.
Proof.
  repeat split.
  - vm_compute. right. left. reflexivity.
  - vm_compute. discriminate.
Qed.

Lemma format_completion_list_order_witness :
  In (mkHistory (Some [select ev0]) ["C"; "B"]%string) (history_rows [ev0; ev1]) /\
  ["C"; "B"]%string <> [] /\
  exists idx,
    Forall2 (fun u i =>
               LabelEncoder.index_of (User u) (labels_json [ev0; ev1]) = Some i)
            ["C"; "B"]%string idx /\
    format_completion (le [ev0; ev1]) ["C"; "B"]%string
    = Ok (" " ++ String.concat " " (map str idx) ++ " end")%string.
Proof.
  assert (Hin : In (mkHistory (Some [select ev0]) ["C"; "B"]%string)
                   (history_rows [ev0; ev1])).
  { vm_compute. right. left. reflexivity. }
  split; [exact Hin|]. split; [discriminate|].
  apply (format_completion_list_order (history_rows [ev0; ev1])
           (mkHistory (Some [select ev0]) ["C"; "B"]%string) Hin).
  discriminate.
Defined.

(** X10. For any encoder, [format_completion] raises [ValueError] exactly
    when some user of the list is not among the encoder's classes; it
    raises nothing else, and an empty list never raises. *)
Theorem format_completion_raises (le0 : LabelEncoder.t) (eu : list UserId) :
  (format_completion le0 eu = Raise ValueError <->
   exists u, In u eu /\ ~ In (User u) (LabelEncoder.classes_ le0)) /\
  format_completion le0 eu <> Raise TypeError.
Proof.
  assert (Hshape : forall e, format_completion le0 eu = Raise e ->
            e = ValueError /\
            exists u, In u eu /\ ~ In (User u) (LabelEncoder.classes_ le0)).
  { intros e He. unfold format_completion in He.
    destruct eu as [|u0 eu]; [discriminate|].
    cbn [List.length Nat.ltb Nat.leb] in He.
    destruct (LabelEncoder.transform le0 (u0 :: eu)) as [idx|e'] eqn:Et;
      simpl in He; [discriminate|].
    injection He as ->. apply mapM_Raise in Et.
    destruct Et as [u [Hu Hf]].
    destruct (LabelEncoder.index_of (User u) (LabelEncoder.classes_ le0)) eqn:Ei;
      [discriminate|].
    injection Hf as <-. split; [reflexivity|].
    exists u. split; [assumption|]. now apply index_of_None. }
  split; [split|].
  - intro He. exact (proj2 (Hshape _ He)).
  - intros [u [Hu Hn]].
    destruct (format_completion le0 eu) as [s|e] eqn:E.
    + exfalso. unfold format_completion in E.
      destruct eu as [|u0 eu]; [contradiction|].
      cbn [List.length Nat.ltb Nat.leb] in E.
      destruct (LabelEncoder.transform le0 (u0 :: eu)) as [idx|e'] eqn:Et;
        simpl in E; [|discriminate].
      apply transform_Forall2 in Et.
      destruct (@Forall2_In_l _ _ _ _ _ u Et Hu) as [i [_ Hi]].
      apply Hn. apply index_of_nth_error in Hi.
      eapply nth_error_In; eassumption.
    + destruct (Hshape e eq_refl) as [-> _]. reflexivity.
  - intro He. destruct (Hshape _ He) as [Hd _]. discriminate.
Qed.

Lemma format_completion_raises_witness :
  format_completion (le [ev0; ev1]) ["B"; "Z"]%string = Raise ValueError /\
  ~ In (User "Z"%string) (LabelEncoder.classes_ (le [ev0; ev1])).
Proof.
  assert (Hz : ~ In (User "Z"%string) (LabelEncoder.classes_ (le [ev0; ev1]))).
  { vm_compute. intuition discriminate. }
  split; [|exact Hz].
  apply (proj1 (format_completion_raises (le [ev0; ev1]) ["B"; "Z"]%string)).
  exists "Z"%string. split; [right; now left|exact Hz].
Defined.

(* ================================================================== *)
(** * The order of the vocabulary *)

Lemma string_leb_refl (a : string) : String.leb a a = true.
Proof. destruct (String.leb_total a a); assumption. Qed.

Lemma string_compare_trans (a b c : string) :
  String.compare a b <> Gt -> String.compare b c <> Gt -> String.compare a c <> Gt.
Proof.
  revert b c. induction a as [|x a IH]; intros [|y b] [|z c]; simpl;
    try congruence.
  unfold Ascii.compare.
  destruct (N.compare_spec (N_of_ascii x) (N_of_ascii y)) as [Exy|Lxy|Gxy];
    destruct (N.compare_spec (N_of_ascii y) (N_of_ascii z)) as [Eyz|Lyz|Gyz];
    destruct (N.compare_spec (N_of_ascii x) (N_of_ascii z)) as [Exz|Lxz|Gxz];
    try congruence; try lia.
  apply IH.
Qed.

Lemma string_leb_trans (a b c : string) :
  String.leb a b = true -> String.leb b c = true -> String.leb a c = true.
Proof.
  unfold String.leb. intros Hab Hbc.
  assert (H1 : String.compare a b <> Gt) by (destruct (String.compare a b); congruence).
  assert (H2 : String.compare b c <> Gt) by (destruct (String.compare b c); congruence).
  pose proof (string_compare_trans _ _ _ H1 H2) as H3.
  destruct (String.compare a c); congruence.
Qed.

Lemma insert_sorted_StronglySorted (x : string) (l : list string) :
  StronglySorted string_le l -> StronglySorted string_le (insert_sorted x l).
Proof.
  induction 1 as [|y l Hs IH Hall]; simpl.
  - repeat constructor.
  - destruct (String.leb x y) eqn:E.
    + constructor; [now constructor|].
      constructor; [exact E|].
      rewrite Forall_forall in Hall |- *. intros z Hz.
      eapply string_leb_trans; [exact E|]. now apply Hall.
    + constructor; [assumption|].
      apply Forall_forall. intros z Hz. apply insert_sorted_In in Hz.
      destruct Hz as [->|Hz].
      * destruct (String.leb_total x y) as [H1|H1]; [congruence|exact H1].
      * rewrite Forall_forall in Hall. now apply Hall.
Qed.

Lemma sorted_StronglySorted (l : list string) : StronglySorted string_le (sorted l).
Proof.
  induction l as [|x l IH]; simpl; [constructor|].
  now apply insert_sorted_StronglySorted.
Qed.

Lemma insert_sorted_Permutation (x : string) (l : list string) :
  Permutation (x :: l) (insert_sorted x l).
Proof.
  induction l as [|y l IH]; simpl; [reflexivity|].
  destruct (String.leb x y); [reflexivity|].
  rewrite perm_swap. now constructor.
Qed.

Lemma sorted_Permutation (l : list string) : Permutation l (sorted l).
Proof.
  induction l as [|x l IH]; simpl; [constructor|].
  rewrite <- insert_sorted_Permutation. now constructor.
Qed.

(* ================================================================== *)
(** * Round trip through the vocabulary *)

Lemma append_assoc (a b c : string) :
  ((a ++ b) ++ c)%string = (a ++ (b ++ c))%string.
Proof. induction a as [|x a IH]; simpl; [reflexivity|now rewrite IH]. Qed.

Lemma parse_index_str (n : nat) : parse_index (str n) = Some n.
Proof.
  unfold parse_index, str. rewrite NilEmpty.usu. simpl.
  now rewrite DecimalNat.Unsigned.of_to.
Qed.

Lemma str_not_empty (n : nat) : str n <> EmptyString.
Proof.
  intro E. pose proof (parse_index_str n) as Hp. rewrite E in Hp.
  injection Hp as <-. discriminate E.
Qed.

Lemma str_not_nil (n : nat) : str n <> "nil"%string.
Proof.
  intro E. pose proof (parse_index_str n) as Hp. rewrite E in Hp. discriminate Hp.
Qed.

Lemma string_of_uint_no_space (d : Decimal.uint) :
  has_space (NilEmpty.string_of_uint d) = false.
Proof. induction d; simpl; auto. Qed.

Lemma str_no_space (n : nat) : has_space (str n) = false.
Proof. apply string_of_uint_no_space. Qed.

Lemma split_space_word (w s : string) :
  has_space w = false ->
  split_space (w ++ String " "%char s) = w :: split_space s.
Proof.
  induction w as [|c w IH]; simpl; intro Hw; [reflexivity|].
  apply orb_false_iff in Hw. destruct Hw as [Hc Hw].
  rewrite Hc, (IH Hw). reflexivity.
Qed.

Lemma split_space_last (w : string) :
  has_space w = false -> split_space w = [w].
Proof.
  induction w as [|c w IH]; simpl; intro Hw; [reflexivity|].
  apply orb_false_iff in Hw. destruct Hw as [Hc Hw].
  rewrite Hc, (IH Hw). reflexivity.
Qed.

Lemma split_space_concat (ws : list string) :
  ws <> [] ->
  Forall (fun w => has_space w = false) ws ->
  split_space (String.concat " " ws ++ " end")%string = ws ++ ["end"%string].
Proof.
  intros Hne Hall. induction Hall as [|w ws Hw Hall IH]; [congruence|].
  destruct ws as [|w' ws].
  - simpl. change (w ++ " end")%string with (w ++ String " "%char "end")%string.
    now rewrite split_space_word.
  - change (String.concat " " (w :: w' :: ws))
      with (w ++ " " ++ String.concat " " (w' :: ws))%string.
    rewrite !append_assoc.
    change (" " ++ String.concat " " (w' :: ws) ++ " end")%string
      with (String " "%char (String.concat " " (w' :: ws) ++ " end"))%string.
    rewrite split_space_word by assumption.
    rewrite IH by discriminate. reflexivity.
Qed.

(** The words of a completion that lists indices: the indices, then the
    end marker. *)
Lemma words_completion (idx : list nat) :
  idx <> [] ->
  words (" " ++ String.concat " " (map str idx) ++ " end")%string
  = map str idx ++ ["end"%string].
Proof.
  intro Hne. unfold words.
  change (" " ++ String.concat " " (map str idx) ++ " end")%string
    with (String " "%char (String.concat " " (map str idx) ++ " end"))%string.
  cbn [split_space]. change (Ascii.eqb " " " ") with true. cbn iota.
  rewrite split_space_concat.
  - cbn [filter String.eqb negb]. rewrite filter_app. simpl.
    rewrite filter_all; [reflexivity|].
    apply Forall_forall. intros w Hw. apply in_map_iff in Hw.
    destruct Hw as [i [<- _]].
    destruct (String.eqb_spec (str i) ""%string) as [E|_]; [|reflexivity].
    now apply str_not_empty in E.
  - destruct idx; [congruence|discriminate].
  - apply Forall_forall. intros w Hw. apply in_map_iff in Hw.
    destruct Hw as [i [<- _]]. apply str_no_space.
Qed.

Lemma decode_indices_str (classes : list Label) (eu : list UserId) (idx : list nat) :
  Forall2 (fun u i => LabelEncoder.index_of (User u) classes = Some i) eu idx ->
  decode_indices classes (map str idx) = Some (map User eu).
Proof.
  induction 1 as [|u i eu idx Hui _ IH]; simpl; [reflexivity|].
  rewrite parse_index_str, (index_of_nth_error _ _ Hui), IH. reflexivity.
Qed.

Lemma decode_words_str (classes : list Label) (idx : list nat) :
  decode_words classes (map str idx) = decode_indices classes (map str idx).
Proof.
  destruct idx as [|i [|j idx]]; try reflexivity.
  unfold decode_words. cbn [map].
  destruct (String.eqb_spec (str i) "nil"%string) as [E|_]; [|reflexivity].
  now apply str_not_nil in E.
Qed.

Lemma decode_completion_indices (classes : list Label) (eu : list UserId)
    (idx : list nat) :
  eu <> [] ->
  Forall2 (fun u i => LabelEncoder.index_of (User u) classes = Some i) eu idx ->
  decode_completion classes (" " ++ String.concat " " (map str idx) ++ " end")%string
  = Some (map User eu).
Proof.
  intros Hne HF. unfold decode_completion.
  assert (Hidx : idx <> []) by (destruct HF; congruence).
  rewrite (words_completion Hidx), rev_app_distr. simpl.
  rewrite rev_involutive, decode_words_str.
  now apply decode_indices_str.
Qed.

(** C3. For every corpus and the vocabulary fitted on it, reading the
    completion of an example back through the vocabulary gives the users of
    the example's engagement list, each at its place; the decoded users and
    the engaged users are therefore the same set. *)
Theorem completion_round_trip (df : list history_t) :
  Forall (fun h =>
            exists s decoded,
              format_completion (fit_frame df) (engaged_users h) = Ok s /\
              decode_completion (LabelEncoder.classes_ (fit_frame df)) s
              = Some decoded /\
              decoded = map User (engaged_users h) /\
              forall u, In (User u) decoded <-> In u (engaged_users h))
         df.
Proof.
  apply Forall_forall. intros h Hh.
  assert (Hset : forall u, In (User u) (map User (engaged_users h))
                           <-> In u (engaged_users h)).
  { intro u. rewrite in_map_iff. split.
    - intros [v [[= ->] Hv]]. assumption.
    - intro Hu. eauto. }
  destruct (engaged_users h) as [|u0 eu] eqn:E.
  - exists " nil end"%string, []. repeat split; auto.
  - destruct (frame_transform_Ok df h Hh) as [idx Hidx].
    rewrite E in Hidx.
    exists (" " ++ String.concat " " (map str idx) ++ " end")%string,
           (map User (u0 :: eu)).
    split; [apply format_completion_transform; [discriminate|assumption]|].
    split; [|split; [reflexivity|exact Hset]].
    apply decode_completion_indices; [discriminate|].
    now apply transform_Forall2.
Qed.

(* ================================================================== *)
(** * The scenario of two messages *)

(** C1 fails as stated: no example emitted at t = 1 s has the prompt with a
    single space after the start marker, and two examples are emitted at
    t = 1 s, not one. *)
Lemma scenario_prompt_not_single_space :
  ~ (exists r,
        In r (emitted_at (timedelta_seconds 1) [ev0; ev1]) /\
        format_prompt (conversation (p_value r))
        = Ok ("start -> A --> hi " ++ nl ++ nl ++ "###" ++ nl ++ nl)%string) /\
  List.length (emitted_at (timedelta_seconds 1) [ev0; ev1]) = 2.
Proof.
  split; [|vm_compute; reflexivity].
  intros [r [Hin Hp]]. vm_compute in Hin.
  destruct Hin as [<-|[<-|[]]]; vm_compute in Hp; discriminate.
Qed.

(** C1, as the code has it.  With messages at t = 0 (author A, text "hi")
    and t = 1 s (author B, text "hey", reactor C) in channel "ch1", two
    examples are emitted at t = 1 s, both with the t = 0 message alone as
    snapshot and with the prompt "start -> ", then " A --> hi ", then the
    end-of-prompt marker (two spaces after the arrow of the start marker).
    The first stands at the shifted point of the t = 0 message and has no
    engaged user: its completion is the sentinel.  The second stands at
    the point of the t = 1 s message and has the engagement list [C; B],
    that is the set {B, C}: its completion lists the indices of C and
    B. *)
Theorem scenario_two_messages :
  emitted_at (timedelta_seconds 1) [ev0; ev1]
  = [mkPoint (timedelta_seconds 1) 0 ch1 (mkHistory (Some [select ev0]) []);
     mkPoint (timedelta_seconds 1) 1 ch1
       (mkHistory (Some [select ev0]) ["C"; "B"]%string)] /\
  (forall u : UserId, In u ["C"; "B"]%string <-> u = "B"%string \/ u = "C"%string) /\
  format_prompt (Some [select ev0])
  = Ok ("start ->  A --> hi " ++ nl ++ nl ++ "###" ++ nl ++ nl)%string /\
  labels_json [ev0; ev1] = [User "B"%string; User "C"%string; NaN] /\
  format_completion (le [ev0; ev1]) [] = Ok " nil end"%string /\
  format_completion (le [ev0; ev1]) ["C"; "B"]%string = Ok " 1 0 end"%string.
Proof.
  split; [vm_compute; reflexivity|].
  split; [intro u; simpl; intuition congruence|].
  split; [vm_compute; reflexivity|].
  split; [vm_compute; reflexivity|].
  split; vm_compute; reflexivity.
Qed.

(* ================================================================== *)
(** * Snapshots *)








(* ================================================================== *)
(** * Engagement *)

(** The time of a point of [history] is a timestamp. *)
Lemma history_time (file : list Message) (r : Point Key history_t) :
  well_timed file -> In r (history file) -> (0 <= p_time r <= int64_max)%Z.
Proof.
  intros Hwt Hr. apply history_row in Hr.
  destruct Hr as ((x & Hx & _ & _ & Htx) & _).
  apply message_points_time in Hx. destruct Hx as (Ht & _ & Hin).
  unfold well_timed in Hwt. rewrite Forall_forall in Hwt.
  specialize (Hwt _ Hin). rewrite <- Ht in Hwt.
  assert (0 < shift_delay)%Z by (vm_compute; reflexivity).
  destruct Htx as [->|[-> Hfit]]; lia.
Qed.

(** C10. The engagement list of an example is computed from at most 100
    messages, the most recent ones of the example's entity in the trailing
    window: the messages of its channel and thread handled up to the
    example's point and later than its time minus one second.  A user is
    engaged exactly when they wrote or reacted to one of those 100, so a
    user whose messages in the window are all older than the most recent
    100 is not engaged. *)
Theorem engagement_from_last_100 (file : list Message) :
  well_timed file ->
  Forall (fun r =>
            (0 <= p_time r <= int64_max)%Z /\
            (forall q,
                In q (window_points file r) <->
                exists i m,
                  nth_error file i = Some m /\
                  q = mkPoint (ts_parsed m) i (message_key m) m /\
                  channel m = key_channel (p_key r) /\
                  thread_ts m = key_thread (p_key r) /\
                  (p_time r - shift_delay < ts_parsed m)%Z /\
                  pos_leb (ts_parsed m, i) (pos r) = true) /\
            StronglySorted (fun a b => (p_time a <= p_time b)%Z)
                           (window_points file r) /\
            List.length (lastn 100 (window_points file r)) <= 100 /\
            forall u,
              (In u (engaged_users (p_value r)) <->
               exists q,
                 In q (lastn 100 (window_points file r)) /\
                 engages u (p_value q)) /\
              ((forall q, In q (window_points file r) ->
                          engages u (p_value q) ->
                          ~ In q (lastn 100 (window_points file r))) ->
               ~ In u (engaged_users (p_value r))))
         (history file).
Proof.
  intro Hwt. apply Forall_forall. intros r Hr.
  split; [exact (@history_time file r Hwt Hr)|]. split; [|split; [|split]].
  - intro q. rewrite window_points_In, message_points_In. split.
    + intros ((i & m & Hn & ->) & Hk & Hle & Hlt). simpl in *.
      exists i, m. rewrite <- Hk. simpl. auto 10.
    + intros (i & m & Hn & -> & Hc & Hth & Hlt & Hle). simpl.
      split; [eauto|]. split; [|auto].
      destruct (p_key r) as [c t]. simpl in *. unfold message_key. congruence.
  - apply ordered_time, window_points_ordered.
  - apply lastn_length.
  - intro u.
    assert (Hiff : In u (engaged_users (p_value r)) <->
                   exists q,
                     In q (lastn 100 (window_points file r)) /\
                     engages u (p_value q)).
    { apply history_row in Hr. destruct Hr as (_ & _ & ->).
      rewrite engaged_In, trailing_messages_eq. split.
      - intros (m & Hm & Hum). apply in_map_iff in Hm.
        destruct Hm as (q & <- & Hq). eauto.
      - intros (q & Hq & Hum). exists (p_value q). split; [|assumption].
        now apply in_map. }
    split; [exact Hiff|].
    intros Hold Hu. apply Hiff in Hu. destruct Hu as (q & Hq & Hum).
    apply (Hold q); auto. eapply lastn_In; eassumption.
Qed.

Lemma engagement_from_last_100_witness :
  well_timed burst /\
  In burst_first (history burst) /\
  p_time burst_first = timedelta_seconds 1 /\
  List.length (window_points burst burst_first) = 101 /\
  In (mkPoint 1%Z 1 ch1
        (mkMessage "ch1"%string None 1%Z "1"%string "1"%string ""%string []))
     (window_points burst burst_first) /\
  ~ In "1"%string (engaged_users (p_value burst_first)) /\
  In "2"%string (engaged_users (p_value burst_first)).
Proof.
  assert (Hwt : well_timed burst).
  { apply Forall_forall. intros m Hm. unfold burst in Hm.
    apply in_map_iff in Hm. destruct Hm as [i [<- Hi]]. apply in_seq in Hi.
    simpl. unfold int64_max. lia. }
  assert (Hin : In burst_first (history burst)).
  { apply nth_In. vm_compute. lia. }
  split; [exact Hwt|]. split; [exact Hin|].
  split; [vm_compute; reflexivity|].
  split; [vm_compute; reflexivity|].
  split; [vm_compute; left; reflexivity|].
  pose proof (engagement_from_last_100 Hwt) as Hall.
  rewrite Forall_forall in Hall.
  destruct (Hall burst_first Hin) as (_ & _ & _ & _ & Hu).
  split.
  - apply (proj2 (Hu "1"%string)).
    apply (proj1 (Forall_forall
             (fun q => engages "1"%string (p_value q) ->
                       ~ In q (lastn 100 (window_points burst burst_first)))
             (window_points burst burst_first))).
    vm_compute.
    repeat (apply Forall_cons;
            [ intros [Hu1|[re [[] _]]] Hm;
              [ try discriminate Hu1;
                repeat (destruct Hm as [Hm|Hm]; [discriminate Hm|]); exact Hm ]
            | ]).
    apply Forall_nil.
  - vm_compute. left. reflexivity.
Defined.

(* ================================================================== *)
(** * The stream of points and the stream of rows

    [message_points] is [messages] with the subsort of every point. *)

Section PointRows.
Context {K : Type} `{EqKey K}.

Lemma insert_point_row {A : Type} (r : Point K A) (ts : list (Point K A)) :
  Forall (fun x => p_subsort x <= p_subsort r) ts ->
  map (@row_of_point K A) (engine.insert_point r ts)
  = kt.insert_row (row_of_point r) (map (@row_of_point K A) ts).
Proof.
  induction ts as [|x ts IH]; intro Hall; simpl; [reflexivity|].
  inversion Hall as [|? ? Hx Hts]; subst.
  assert (E : pos_leb (pos x) (pos r) = (p_time x <=? p_time r)%Z).
  { unfold pos_leb, pos. simpl. apply Nat.leb_le in Hx. rewrite Hx, andb_true_r.
    destruct (Z.ltb_spec (p_time x) (p_time r)),
             (Z.eqb_spec (p_time x) (p_time r)),
             (Z.leb_spec (p_time x) (p_time r)); simpl; try reflexivity; lia. }
  rewrite E. destruct (p_time x <=? p_time r)%Z; simpl; [|reflexivity].
  f_equal. auto.
Qed.

Lemma source_points_rows_from {A : Type} (tc : A -> Z) (kc : A -> K)
    (rows : list A) (s : nat) (acc : list (Point K A)) :
  Forall (fun x => p_subsort x < s) acc ->
  map (@row_of_point K A)
    (fold_left (fun acc r => engine.insert_point r acc)
       (map (fun ia => mkPoint (tc (snd ia)) (fst ia) (kc (snd ia)) (snd ia))
            (combine (seq s (List.length rows)) rows))
       acc)
  = fold_left (fun acc r => kt.insert_row r acc)
      (map (fun a => mkRow (tc a) (kc a) a) rows)
      (map (@row_of_point K A) acc).
Proof.
  revert s acc. induction rows as [|a rows IH]; intros s acc Hacc; simpl;
    [reflexivity|].
  rewrite IH.
  - f_equal. apply insert_point_row.
    eapply Forall_impl; [|exact Hacc]. simpl. intros x Hx. lia.
  - apply Forall_forall. intros x Hx. apply insert_point_In in Hx.
    destruct Hx as [->|Hx]; [simpl; lia|].
    rewrite Forall_forall in Hacc. specialize (Hacc x Hx). lia.
Qed.

Lemma source_points_rows {A : Type} (tc : A -> Z) (kc : A -> K) (rows : list A) :
  map (@row_of_point K A) (engine.source tc kc rows) = kt.source tc kc rows.
Proof.
  unfold engine.source, kt.source, engine.merge, kt.merge.
  now rewrite source_points_rows_from.
Qed.

End PointRows.

Lemma message_points_rows (file : list Message) :
  map (@row_of_point Key Message) (message_points file) = messages file.
Proof.
  unfold message_points, messages, Parquet, engine.with_key, kt.with_key.
  rewrite <- source_points_rows, !map_map. reflexivity.
Qed.

(* ================================================================== *)
(** * Further properties of the examples *)

Lemma history_ordered (file : list Message) :
  StronglySorted pos_le (history file).
Proof.
  unfold history, history_record.
  apply ordered_filter.
  apply ordered_map; [intros x y Hxy; exact Hxy|].
  apply history_points_ordered.
Qed.

Section PointCount.
Context {K : Type} `{EqKey K}.

Lemma insert_point_length {A : Type} (r : Point K A) (ts : list (Point K A)) :
  List.length (engine.insert_point r ts) = S (List.length ts).
Proof.
  induction ts as [|x ts IH]; simpl; [reflexivity|].
  destruct (pos_leb (pos x) (pos r)); simpl; [now rewrite IH|reflexivity].
Qed.

Lemma merge_points_length {A : Type} (a b : list (Point K A)) :
  List.length (engine.merge a b) = List.length a + List.length b.
Proof.
  unfold engine.merge. revert a. induction b as [|r b IH]; intro a; simpl.
  - lia.
  - rewrite IH, insert_point_length. lia.
Qed.

End PointCount.

Lemma message_points_length (file : list Message) :
  List.length (message_points file) = List.length file.
Proof.
  unfold message_points, engine.with_key, engine.source.
  rewrite length_map, merge_points_length, length_map, length_combine, length_seq.
  simpl. lia.
Qed.

Lemma history_points_length (file : list Message) :
  List.length (history_points file) <= 2 * List.length file.
Proof.
  unfold history_points, engine.map_values.
  rewrite merge_points_length, !length_map, message_points_length.
  unfold shifted_conversations, engine.shift_by.
  pose proof (filter_length_le
                (fun q : Point Key (list Sel.t) => (p_time q <=? int64_max)%Z)
                (map (fun q : Point Key (list Sel.t) =>
                        mkPoint (p_time q + timedelta_seconds 1)%Z (p_subsort q)
                                (p_key q) (p_value q))
                     (conversations file))) as Hle.
  rewrite length_map in Hle. unfold conversations, engine.collect in Hle.
  unfold engine.map_values in Hle.
  rewrite !length_map, message_points_length in Hle.
  unfold conversations, engine.collect, engine.map_values. lia.
Qed.

(** X2. The points of [history], and so the lines of [examples.jsonl], are
    in the order of (time, row index), hence in chronological order; there
    are at most two of them for every row of the file. *)
Theorem history_chronological (file : list Message) :
  StronglySorted pos_le (history file) /\
  StronglySorted (fun a b => (p_time a <= p_time b)%Z) (history file) /\
  List.length (history_rows file) <= 2 * List.length file.
Proof.
  split; [apply history_ordered|]. split.
  - apply ordered_time, history_ordered.
  - unfold history_rows, history, history_record. rewrite length_map.
    etransitivity; [apply filter_length_le|].
    rewrite length_map. apply history_points_length.
Qed.



(** X4. Prompt and label of an example do not overlap in time: every event
    of the snapshot is at least one second older than the example, and
    every message the engagement list is computed from is less than one
    second older, so every snapshot event is strictly earlier than every
    engagement message. *)
Theorem engagement_after_snapshot (file : list Message) :
  Forall (fun r =>
            exists q,
              In q (message_points file) /\
              conversation (p_value r)
              = Some (map select (map (@p_value Key Message) (snapshot_events file q))) /\
              Forall (fun e => (ts_parsed (p_value e) + shift_delay <= p_time r)%Z)
                     (snapshot_events file q) /\
              Forall (fun w => (p_time r - shift_delay < ts_parsed (p_value w)
                                <= p_time r)%Z)
                     (window_points file r) /\
              (forall e w, In e (snapshot_events file q) ->
                           In w (window_points file r) ->
                           (ts_parsed (p_value e) < ts_parsed (p_value w))%Z) /\
              (forall u, In u (engaged_users (p_value r)) ->
                         exists w, In w (window_points file r) /\
                                   engages u (p_value w)))
         (history file).
Proof.
  apply Forall_forall. intros r Hr. apply history_row in Hr.
  destruct Hr as (_ & (q & Hq & Hkq & _ & Hle & Hconv) & Heng).
  assert (Hsnap : forall e, In e (snapshot_events file q) ->
                            (ts_parsed (p_value e) + shift_delay <= p_time r)%Z).
  { intros e He. apply snapshot_events_In in He. destruct He as (He & _ & Heq).
    apply message_points_time in He. destruct He as (Ht & _).
    apply pos_leb_time in Heq. apply pos_leb_time in Hle.
    unfold pos in *. simpl in *. lia. }
  assert (Hwin : forall w, In w (window_points file r) ->
                           (p_time r - shift_delay < ts_parsed (p_value w)
                            <= p_time r)%Z).
  { intros w Hw. apply window_points_In in Hw.
    destruct Hw as (Hw & _ & Hwr & Hlt).
    apply message_points_time in Hw. destruct Hw as (Ht & _).
    apply pos_leb_time in Hwr. unfold pos in Hwr. simpl in Hwr. lia. }
  exists q. split; [assumption|]. split; [assumption|].
  split; [now apply Forall_forall|]. split; [now apply Forall_forall|]. split.
  - intros e w He Hw. specialize (Hsnap e He). specialize (Hwin w Hw). lia.
  - intros u Hu. rewrite Heng in Hu. apply engaged_In in Hu.
    destruct Hu as (m & Hm & Hum). rewrite trailing_messages_eq in Hm.
    apply in_map_iff in Hm. destruct Hm as (w & <- & Hw).
    exists w. split; [|assumption]. eapply lastn_In; eassumption.
Qed.

(** X5. [union] of two lists names no user twice and holds exactly the
    users of either list: a user who both reacted and wrote, or did either
    several times, is listed once. *)
Theorem engaged_users_NoDup (reacted wrote : list UserId) :
  NoDup (kt.union reacted wrote) /\
  (forall u, In u (kt.union reacted wrote) <-> In u reacted \/ In u wrote) /\
  (kt.union reacted wrote = [] <-> reacted = [] /\ wrote = []).
Proof.
  split; [apply dedup_NoDup|]. split; [intro u; apply union_In|]. split.
  - intro He.
    assert (Hno : forall u, ~ (In u reacted \/ In u wrote)).
    { intros u Hu. apply union_In in Hu. rewrite He in Hu. contradiction. }
    split.
    + destruct reacted as [|u l]; [reflexivity|].
      exfalso. apply (Hno u). left. now left.
    + destruct wrote as [|u l]; [reflexivity|].
      exfalso. apply (Hno u). right. now left.
  - intros [-> ->]. reflexivity.
Qed.

(** X6. Whatever the encoder holds, the completion is the sentinel
    [" nil end"] exactly when the engagement list is empty: no list of
    indices is written as the sentinel. *)
Theorem nil_completion_iff (le0 : LabelEncoder.t) (eu : list UserId) :
  format_completion le0 eu = Ok " nil end"%string <-> eu = [].
Proof.
  split; [|intros ->; reflexivity].
  intro Hc. destruct eu as [|u eu]; [reflexivity|]. exfalso.
  destruct (LabelEncoder.transform le0 (u :: eu)) as [idx|e] eqn:Ht.
  - rewrite (@format_completion_transform le0 (u :: eu) idx) in Hc;
      [|discriminate|assumption].
    injection Hc as Hc.
    pose proof (@decode_completion_indices (LabelEncoder.classes_ le0)
                  (u :: eu) idx ltac:(discriminate)
                  (transform_Forall2 _ _ Ht)) as Hd.
    rewrite Hc in Hd. vm_compute in Hd. discriminate Hd.
  - unfold format_completion in Hc. cbn [List.length Nat.ltb Nat.leb] in Hc.
    rewrite Ht in Hc. discriminate Hc.
Qed.

Lemma has_missing_In (y : list Label) :
  LabelEncoder.has_missing y = true <-> In NaN y.
Proof.
  unfold LabelEncoder.has_missing. rewrite existsb_exists. split.
  - intros [l [Hl Hn]]. apply Label_eqb_eq in Hn. now subst.
  - intro Hin. exists NaN. split; [assumption|reflexivity].
Qed.

Lemma explode_NaN (column : list (list UserId)) :
  In NaN (explode column) <-> In [] column.
Proof.
  unfold explode. rewrite in_flat_map. split.
  - intros [l [Hl Hn]]. destruct l as [|v l]; [assumption|].
    apply in_map_iff in Hn. destruct Hn as [w [Hw _]]. discriminate.
  - intro Hin. exists []. split; [assumption|now left].
Qed.

Lemma string_le_neq_lt (a b : string) : string_le a b -> a <> b -> string_lt a b.
Proof.
  unfold string_le, string_lt, String.leb, String.ltb. intros Hle Hne.
  destruct (String.compare a b) eqn:E; try congruence.
  apply String.compare_eq_iff in E. contradiction.
Qed.

Lemma string_lt_irrefl (a : string) : ~ string_lt a a.
Proof.
  unfold string_lt, String.ltb. intro Hlt.
  destruct (String.compare a a) eqn:E; try discriminate.
  pose proof (String.compare_antisym a a) as Ha. rewrite E in Ha. discriminate.
Qed.

Lemma sorted_strict (l : list string) :
  NoDup l -> StronglySorted string_lt (sorted l).
Proof.
  intro Hnd.
  assert (Hnd' : NoDup (sorted l))
    by (eapply Permutation_NoDup; [apply sorted_Permutation|assumption]).
  pose proof (sorted_StronglySorted l) as Hs.
  induction Hs as [|x s Hs IH Hall]; constructor.
  - apply IH. now inversion Hnd'.
  - inversion Hnd' as [|? ? Hx _]; subst.
    rewrite Forall_forall in Hall |- *. intros y Hy.
    apply string_le_neq_lt; [now apply Hall|]. intros ->. contradiction.
Qed.

Lemma strict_NoDup (l : list string) : StronglySorted string_lt l -> NoDup l.
Proof.
  induction 1 as [|x l Hs IH Hall]; constructor; [|assumption].
  intro Hin. rewrite Forall_forall in Hall.
  exact (string_lt_irrefl (Hall x Hin)).
Qed.

Lemma NoDup_map_User (us : list UserId) : NoDup us -> NoDup (map User us).
Proof.
  induction 1 as [|u us Hu _ IH]; simpl; constructor; [|assumption].
  intro Hin. apply in_map_iff in Hin. destruct Hin as [v [[= ->] Hv]].
  contradiction.
Qed.

(** X7. The labels fitted on a frame are exactly the users engaged in some
    row of the frame, and the missing value exactly when some row has no
    engaged user. *)
Theorem labels_json_content (df : list history_t) :
  (forall u, In (User u) (LabelEncoder.classes_ (fit_frame df)) <->
             exists h, In h df /\ In u (engaged_users h)) /\
  (In NaN (LabelEncoder.classes_ (fit_frame df)) <->
   exists h, In h df /\ engaged_users h = []).
Proof.
  split.
  - intro u. unfold fit_frame. rewrite fit_In, explode_In. split.
    + intros [l [Hl Hu]]. apply in_map_iff in Hl. destruct Hl as [h [<- Hh]]. eauto.
    + intros [h [Hh Hu]]. exists (engaged_users h). split; [now apply in_map|assumption].
  - unfold fit_frame, LabelEncoder.fit, LabelEncoder.classes_of. simpl.
    rewrite in_app_iff. split.
    + intros [Hin|Hin].
      * apply in_map_iff in Hin. destruct Hin as [u [Hu _]]. discriminate.
      * destruct (LabelEncoder.has_missing _) eqn:E; [|contradiction].
        apply has_missing_In, explode_NaN, in_map_iff in E.
        destruct E as [h [Hh Hin']]. eauto.
    + intros [h [Hh He]]. right.
      assert (E : LabelEncoder.has_missing (explode (map engaged_users df)) = true).
      { apply has_missing_In, explode_NaN. rewrite <- He. now apply in_map. }
      rewrite E. now left.
Qed.

(** X8. The classes [fit] gives for any column are its users in strictly
    ascending order, followed by at most one missing value; no label
    occurs twice, so a position in the list identifies a label. *)
Theorem labels_json_ascending (y : list Label) :
  exists us missing,
    LabelEncoder.classes_ (LabelEncoder.fit y) = map User us ++ missing /\
    StronglySorted string_lt us /\
    (forall u, In u us <-> In (User u) y) /\
    (missing = [NaN] /\ In NaN y \/ missing = [] /\ ~ In NaN y) /\
    NoDup (LabelEncoder.classes_ (LabelEncoder.fit y)).
Proof.
  unfold LabelEncoder.fit, LabelEncoder.classes_of. simpl.
  set (us := sorted (dedup [] (LabelEncoder.user_labels y))).
  set (missing := if LabelEncoder.has_missing y then [NaN] else []).
  assert (Hs : StronglySorted string_lt us) by (apply sorted_strict, dedup_NoDup).
  assert (Hm : missing = [NaN] /\ In NaN y \/ missing = [] /\ ~ In NaN y).
  { unfold missing. destruct (LabelEncoder.has_missing y) eqn:E.
    - left. split; [reflexivity|]. now apply has_missing_In.
    - right. split; [reflexivity|]. intro Hin. apply has_missing_In in Hin.
      congruence. }
  exists us, missing. repeat split; try assumption.
  - unfold us. rewrite sorted_In, dedup_In, user_labels_In. simpl. tauto.
  - unfold us. rewrite sorted_In, dedup_In, user_labels_In. simpl. tauto.
  - apply NoDup_app.
    + apply NoDup_map_User. now apply strict_NoDup.
    + destruct Hm as [[-> _]|[-> _]]; repeat constructor. simpl. tauto.
    + intros l Hl Hl'. apply in_map_iff in Hl. destruct Hl as [u [<- _]].
      destruct Hm as [[-> _]|[-> _]]; simpl in Hl'; intuition discriminate.
Qed.

(** X9. For a row of a frame and the encoder fitted on the frame,
    [transform] gives as many indices as the row has engaged users; each
    is below the number of labels and is the position of its user in the
    labels; when the row names no user twice the indices are distinct. *)
Theorem transform_indices_valid (df : list history_t) (h : history_t) :
  In h df ->
  exists idx,
    LabelEncoder.transform (fit_frame df) (engaged_users h) = Ok idx /\
    List.length idx = List.length (engaged_users h) /\
    Forall (fun i => i < List.length (LabelEncoder.classes_ (fit_frame df))) idx /\
    Forall2 (fun u i => nth_error (LabelEncoder.classes_ (fit_frame df)) i
                        = Some (User u))
            (engaged_users h) idx /\
    (NoDup (engaged_users h) -> NoDup idx).
Proof.
  intro Hh.
  destruct (frame_transform_Ok df h Hh) as [idx Hidx].
  pose proof (transform_Forall2 _ _ Hidx) as HF.
  exists idx. split; [assumption|]. split; [|split; [|split]].
  - symmetry. eapply Forall2_length_eq; eassumption.
  - apply Forall_forall. intros i Hi.
    destruct (@Forall2_In_r _ _ _ _ _ i HF Hi) as [u [_ Hu]].
    apply index_of_nth_error in Hu. apply nth_error_Some. congruence.
  - eapply Forall2_impl; [|exact HF]. simpl. intros u i Hu.
    now apply index_of_nth_error.
  - intro Hnd. eapply Forall2_NoDup; [|exact HF|exact Hnd].
    intros u v i Hu Hv. apply index_of_nth_error in Hu, Hv. congruence.
Qed.

Lemma transform_indices_valid_witness :
  In (mkHistory (Some [select ev0]) ["C"%string; "B"%string])
     (history_rows [ev0; ev1]) /\
  exists idx,
    LabelEncoder.transform (fit_frame (history_rows [ev0; ev1]))
      ["C"%string; "B"%string] = Ok idx /\
    idx = [1; 0].
Proof.
  assert (Hin : In (mkHistory (Some [select ev0]) ["C"%string; "B"%string])
                   (history_rows [ev0; ev1]))
    by (vm_compute; right; left; reflexivity).
  split; [exact Hin|].
  destruct (@transform_indices_valid (history_rows [ev0; ev1]) _ Hin)
    as (idx & Hidx & _).
  exists idx. split; [exact Hidx|].
  simpl engaged_users in Hidx. vm_compute in Hidx. now injection Hidx.
Defined.

Lemma encode_Forall2 (le0 : LabelEncoder.t) (df : list history_t)
    (ps cs : list string) :
  Forall2 (fun c p => format_prompt c = Ok p) (map conversation df) ps ->
  Forall2 (fun e c => format_completion le0 e = Ok c) (map engaged_users df) cs ->
  Forall2 (fun h ex =>
             format_prompt (conversation h) = Ok (prompt ex) /\
             format_completion le0 (engaged_users h) = Ok (completion ex))
          df (map (fun pc => mkExample (fst pc) (snd pc)) (combine ps cs)).
Proof.
  revert ps cs. induction df as [|h df IH]; intros ps cs Hp Hc; simpl in *.
  - inversion Hp; subst. constructor.
  - inversion Hp as [|? p ? ps' Hp1 Hp2]; subst.
    inversion Hc as [|? c ? cs' Hc1 Hc2]; subst.
    simpl. constructor; [split; assumption|]. now apply IH.
Qed.

(** X11. When the examples of a frame are built, there is one per row of
    the frame, in the order of the rows; the prompt of each is
    [format_prompt] of its row's conversation and its completion
    [format_completion] of its row's engaged users. *)
Theorem examples_df_rows (le0 : LabelEncoder.t) (df : list history_t)
    (examples : list Example) :
  encode le0 df = Ok examples ->
  Forall2 (fun h ex =>
             format_prompt (conversation h) = Ok (prompt ex) /\
             format_completion le0 (engaged_users h) = Ok (completion ex))
          df examples /\
  List.length examples = List.length df.
Proof.
  intro Hexs.
  assert (HF : Forall2 (fun h ex =>
               format_prompt (conversation h) = Ok (prompt ex) /\
               format_completion le0 (engaged_users h) = Ok (completion ex))
            df examples).
  { unfold encode in Hexs.
    destruct (mapM format_prompt (map conversation df))
      as [ps|e] eqn:Ep; simpl in Hexs; [|discriminate].
    destruct (mapM (format_completion le0) (map engaged_users df))
      as [cs|e] eqn:Ec; simpl in Hexs; [|discriminate].
    injection Hexs as <-.
    apply encode_Forall2; now apply mapM_Forall2. }
  split; [exact HF|].
  symmetry. eapply Forall2_length_eq; exact HF.
Qed.

Lemma examples_df_rows_witness :
  exists examples,
    encode (le [ev0; ev1]) (history_rows [ev0; ev1]) = Ok examples /\
    List.length examples = 3.
Proof.
  assert (He : exists examples,
             encode (le [ev0; ev1]) (history_rows [ev0; ev1]) = Ok examples).
  { vm_compute. eexists. reflexivity. }
  destruct He as [examples He]. exists examples. split; [exact He|].
  destruct (@examples_df_rows _ _ _ He) as [_ Hlen].
  rewrite Hlen. vm_compute. reflexivity.
Defined.


